(** * app_mapa_geo: loader, filter and colour scale of the geological viewer

    A shallow embedding of [app_mapa_geo.py].  The script is a straight
    line of pandas calls on DataFrame objects, some of which update the
    object in place ([inplace=True], column assignment) and some of which
    build a new object (boolean indexing, [.copy()]).  DataFrames therefore
    live in a store and the script is written in a small state-and-exception
    monad over that store, one monadic line per line of Python.

    Numbers: a pandas float is modelled as a rational [Q]; the float NaN is
    the separate constructor [NaN] of a cell ([None] for a scalar), so the
    order on the numeric values is total, as it is on the floats that are
    not NaN.  Rounding and the two infinities are outside the model: the
    statements below are about order and equality of the values read, not
    about the last bits of a sum or a quotient.

    The page of the model records what a run reports in the main area: the
    error of the loader, the two warnings and the map.  The title and the
    widgets of the side bar are written on every run whatever the data and
    are not recorded; what the two widgets return is an input of the run. *)

From Stdlib Require Import Ascii String QArith Qminmax Lqa.
From stdpp Require Import gmap strings list.

Open Scope string_scope.
Open Scope list_scope.

(** ** Cells, rows and DataFrames *)

(** A cell as [pd.read_csv] leaves it: missing, a number, or text. *)
Inductive cell :=
  | NaN
  | Num (x : Q)
  | Str (s : string).

(** A float scalar or an entry of a float Series: [None] is NaN. *)
Abbreviation float := (option Q).

Abbreviation row := (gmap string cell).

Record DataFrame := mkDataFrame {
  columns : list string;
  rows : list row
}.

(** [row[c]]; a column the row does not store reads as missing. *)
Definition cell_at (c : string) (r : row) : cell := default NaN (r !! c).

Definition notna (c : cell) : bool :=
  match c with NaN => false | _ => true end.

(** Python's [==] on cells as [Series.isin] uses it: numbers by value
    (so [1/2] and [2/4] are the same key), text by content, and a missing
    value matches a missing value. *)
Definition cell_eqb (a b : cell) : bool :=
  match a, b with
  | NaN, NaN => true
  | Num x, Num y => Qeq_bool x y
  | Str s, Str t => bool_decide (s = t)
  | _, _ => false
  end.

(** [series.isin(values)] *)
Definition isin (s : list cell) (values : list cell) : list bool :=
  (λ c, existsb (cell_eqb c) values) <$> s.

(** ** Colours and the colour map *)

(** A colour is a CSS name or a red-green-blue triple on the 0-255 scale. *)
Abbreviation rgb := (Q * Q * Q)%type.

Inductive color :=
  | ColorName (name : string)
  | Rgb (c : rgb).

Definition Qlt_bool (x y : Q) : bool := negb (Qle_bool y x).

(** Modelled from the spec: the stops of branca's [linear.YlOrRd_09], which
    is not part of the source.  Section 4.3: a fixed gradient from yellow
    through orange to red, nine stops, a standard sequential palette; these
    are the nine colours of the ColorBrewer palette YlOrRd, light yellow
    first. *)
Definition YlOrRd_09 : list rgb :=
  [ (255, 255, 204); (255, 237, 160); (254, 217, 118); (254, 178, 76);
    (253, 141, 60); (252, 78, 42); (227, 26, 28); (189, 0, 38);
    (128, 0, 38) ]%Q.

(** Modelled from the spec: branca's colour map object, which is also the
    legend of section 4.3: the interval, the stops and the caption. *)
Record LinearColormap := mkLinearColormap {
  colors : list rgb;
  vmin : Q;
  vmax : Q;
  caption : string
}.

(** Modelled from the spec: linear interpolation between two stops, the
    point [p] of the way from [c0] to [c1]. *)
Definition mix (c0 c1 : rgb) (p : Q) : rgb :=
  let '(r0, g0, b0) := c0 in
  let '(r1, g1, b1) := c1 in
  ((1 - p) * r0 + p * r1, (1 - p) * g0 + p * g1, (1 - p) * b0 + p * b1)%Q.

(** Modelled from the spec: the colour at position [u] of a gradient whose
    consecutive stops are one unit apart, stop [k] at [u = k]. *)
Fixpoint interpolate (stops : list rgb) (u : Q) : rgb :=
  match stops with
  | [] => (0, 0, 0)%Q
  | c0 :: rest =>
      match rest with
      | [] => c0
      | c1 :: _ => if Qle_bool u 1 then mix c0 c1 u else interpolate rest (u - 1)
      end
  end.

(** Modelled from the spec: the position of [x] on the gradient of [cm],
    linear in [x]: 0 at [vmin], one unit per stop, [length colors - 1] at
    [vmax]. *)
Definition gradient_position (cm : LinearColormap) (x : Q) : Q :=
  (inject_Z (Z.of_nat (length (colors cm) - 1)) * (x - vmin cm) / (vmax cm - vmin cm))%Q.


(** Modelled from the spec: [linear.YlOrRd_09.scale(vmin, vmax)] and the
    call [colormap(x)] are branca's, a library the script imports, and are
    not part of the source.  Section 4.3: the function linearly
    interpolates the fixed nine-stop gradient over the closed interval
    [vmin, vmax], values being clamped to the interval first.  The result
    is the exact interpolated colour; branca then rounds each channel to a
    byte and prints it in hexadecimal. *)
Definition scale (stops : list rgb) (vmin vmax : Q) : LinearColormap :=
  mkLinearColormap stops vmin vmax "".

(** Modelled from the spec: the call [colormap(x)].  A value at or below
    [vmin] has the first stop, one at or above [vmax] the last, one in
    between the interpolated colour at its position. *)
Definition colormap_call (cm : LinearColormap) (x : Q) : color :=
  if Qle_bool x (vmin cm) then Rgb (hd (0, 0, 0)%Q (colors cm))
  else if Qle_bool (vmax cm) x then Rgb (List.last (colors cm) (0, 0, 0)%Q)
  else Rgb (interpolate (colors cm) (gradient_position cm x)).

(** [colormap.caption = s] *)
Definition set_caption (cm : LinearColormap) (s : string) : LinearColormap :=
  mkLinearColormap (colors cm) (vmin cm) (vmax cm) s.



(** ** Reductions of a Series *)

(** The numbers of a Series; missing values are skipped, as pandas'
    reductions do.  (The script reduces columns that went through
    [pd.to_numeric] only, which hold no text.) *)
Definition numbers (s : list cell) : list Q :=
  omap (λ c, match c with Num x => Some x | _ => None end) s.

(** [series.min()], [series.max()], [series.mean()]: NaN on a Series
    without numbers. *)
Definition series_min (s : list cell) : float :=
  match numbers s with
  | [] => None
  | x :: l => Some (foldl Qmin x l)
  end.

Definition series_max (s : list cell) : float :=
  match numbers s with
  | [] => None
  | x :: l => Some (foldl Qmax x l)
  end.

(** The mean is the exact quotient; pandas rounds the sum and the quotient
    to the nearest float. *)
Definition series_mean (s : list cell) : float :=
  match numbers s with
  | [] => None
  | x :: l => Some (foldl Qplus x l / inject_Z (Z.of_nat (length (x :: l))))%Q
  end.

(** [a > b] on floats: false as soon as one side is NaN. *)
Definition float_gt (a b : float) : bool :=
  match a, b with
  | Some x, Some y => Qlt_bool y x
  | _, _ => false
  end.

(** ** The element catalogue (lines 38-45 and 59) *)

Definition element_columns : list string :=
  [ "Li_ppm2"; "Cu_ppm2"; "Co_ppm2"; "Ni_ppm2"; "La_ppm2"; "Ce_ppm2";
    "Pr_ppm2"; "Nd_ppm2"; "Sm_ppm2"; "Eu_ppm2"; "Gd_ppm2"; "Tb_ppm2";
    "Dy_ppm2"; "Ho_ppm2"; "Er_ppm2"; "Tm_ppm2"; "Yb_ppm2"; "Lu_ppm2";
    "Sc_ppm2"; "Y_ppm2" ].

(** [s.split(sep)] for a separator of one character. *)
Fixpoint split (sep : ascii) (s : string) : list string :=
  match s with
  | EmptyString => [EmptyString]
  | String c s' =>
      if Ascii.eqb c sep then EmptyString :: split sep s'
      else match split sep s' with
           | w :: ws => String c w :: ws
           | [] => [String c EmptyString]
           end
  end.

(** [e.split('_')[0]] *)
Definition element_name (e : string) : string :=
  hd EmptyString (split "_"%char e).

Definition element_names : list string := element_name <$> element_columns.

(** [f"{selected_element_name}_ppm2"] *)
Definition element_col (selected_element_name : string) : string :=
  selected_element_name +:+ "_ppm2".

(** The text of [s] before its first underscore (all of [s] when it has
    none), read off character by character. *)
Fixpoint before_underscore (s : string) : string :=
  match s with
  | EmptyString => EmptyString
  | String c s' =>
      if Ascii.eqb c "_"%char then EmptyString else String c (before_underscore s')
  end.

(** ** What the page shows *)

Record marker := mkMarker {
  location : cell * cell;
  marker_color : color;
  popup : cell * cell * cell
}.

Inductive ui :=
  | StError (msg : string)
  | StWarning (msg : string)
  | StFolium (center : float * float) (lg : option LinearColormap)
             (ms : list marker).

(** ** The store and the monad *)

Inductive exn :=
  | FileNotFoundError (path : string)
  | KeyError (key : string)
  | NameError
  | ValueError
  | ParserError.

Record world := mkWorld {
  files : gmap string string;   (* the file system: path to contents *)
  heap : list DataFrame;        (* DataFrame objects, by address *)
  page : list ui                (* what has been written to the page *)
}.

Abbreviation loc := nat.

(** A computation keeps the state it reached when it raises, as Python
    does. *)
Definition M (A : Type) : Type := world → (exn + A) * world.

#[local] Instance M_ret : MRet M := λ A x w, (inr x, w).
#[local] Instance M_bind : MBind M := λ A B f m w,
  match m w with
  | (inr x, w') => f x w'
  | (inl e, w') => (inl e, w')
  end.

Definition raise {A} (e : exn) : M A := λ w, (inl e, w).

Definition set_heap (h : list DataFrame) (w : world) : world :=
  mkWorld (files w) h (page w).

Definition alloc (t : DataFrame) : M loc := λ w,
  (inr (length (heap w)), set_heap (heap w ++ [t]) w).

(** The object a variable is bound to.  Every address the script holds
    comes from [alloc], so the second case does not occur in a run. *)
Definition load (l : loc) : M DataFrame := λ w,
  match heap w !! l with
  | Some t => (inr t, w)
  | None => (inl NameError, w)
  end.

Definition store (l : loc) (t : DataFrame) : M unit := λ w,
  (inr (), set_heap (<[l := t]> (heap w)) w).

Definition display (u : ui) : M unit := λ w,
  (inr (), mkWorld (files w) (heap w) (page w ++ [u])).

(** ** The sample types on offer (line 47) *)

(** [series.unique()]: the distinct values in the order in which they first
    appear; two cells are the same value when [==] holds, and all missing
    values count as one. *)
Fixpoint unique_from (seen : list cell) (s : list cell) : list cell :=
  match s with
  | [] => []
  | c :: s' =>
      if existsb (cell_eqb c) seen then unique_from seen s'
      else c :: unique_from (c :: seen) s'
  end.

Definition unique (s : list cell) : list cell := unique_from [] s.

(** A list of cells no two of which are the same value. *)
Fixpoint distinct (l : list cell) : Prop :=
  match l with
  | [] => True
  | c :: l' => existsb (cell_eqb c) l' = false ∧ distinct l'
  end.

(** ** Messages and predicates used in the statements *)





(** A name with an underscore in it. *)
Fixpoint has_underscore (s : string) : bool :=
  match s with
  | EmptyString => false
  | String c s' => if Ascii.eqb c "_"%char then true else has_underscore s'
  end.

(** ** The cache of [load_data] (line 16) *)

(** Modelled from the spec: an entry of the cache of [@st.cache_data], which
    is Streamlit's and not part of the source.  It holds a snapshot of the
    value a call returned and the elements the call wrote to the page. *)
Record cached := mkCached {
  cached_value : option DataFrame;
  cached_messages : list ui
}.

Abbreviation cache := (gmap string cached).

(** Modelled from the spec: the decorator [@st.cache_data], which is
    Streamlit's and not part of the source.  Sections 4.1 and 9: the result
    is cached keyed by the input path, for the life of the process and with
    no invalidation.  A call whose path has an entry is answered from it,
    without running the function: the elements of the entry are written
    again and the value comes back as a new object.  Any other call runs the
    function; if it returns, its value and what it wrote become the entry of
    the path; if it raises, no entry is made. *)
Definition st_cache_data (f : string → M (option loc)) (path : string)
    (c : cache) (w : world) : (exn + option loc) * cache * world :=
  match c !! path with
  | Some entry =>
      let w1 := mkWorld (files w) (heap w) (page w ++ cached_messages entry) in
      match cached_value entry with
      | None => (inr None, c, w1)
      | Some t => (inr (Some (length (heap w1))), c, set_heap (heap w1 ++ [t]) w1)
      end
  | None =>
      match f path w with
      | (inl e, w') => (inl e, c, w')
      | (inr None, w') =>
          (inr None,
           <[path := mkCached None (drop (length (page w)) (page w'))]> c, w')
      | (inr (Some l), w') =>
          match heap w' !! l with
          | Some t =>
              (inr (Some l),
               <[path := mkCached (Some t) (drop (length (page w)) (page w'))]> c,
               w')
          | None => (inl NameError, c, w')
          end
      end
  end.

(** The cache a call leaves. *)
Definition cache_after {A} (r : A * cache * world) : cache := r.1.2.

(** ** A small data set

    The file of the scenario in the description of the filter, with two
    rows the loader must drop, and stand-ins for the two parsers of pandas
    on it. *)

Definition digit (c : ascii) : option Z :=
  let n := (Z.of_nat (nat_of_ascii c) - 48)%Z in
  if ((0 <=? n) && (n <=? 9))%Z then Some n else None.

Fixpoint read_digits (acc : Z) (s : string) : option Z :=
  match s with
  | EmptyString => Some acc
  | String c s' =>
      match digit c with
      | Some d => read_digits (10 * acc + d) s'
      | None => None
      end
  end.

(** Reads a decimal integer with an optional minus sign, as
    [pd.to_numeric] does on such a text; any other text is not a number. *)
Definition read_integer (s : string) : float :=
  match s with
  | EmptyString => None
  | String c s' =>
      if Ascii.eqb c "-"
      then match s' with
           | EmptyString => None
           | _ => (λ n, inject_Z (- n)) <$> read_digits 0 s'
           end
      else inject_Z <$> read_digits 0 s
  end.

Definition sample_columns : list string :=
  ["latitude"; "longitude"; "tipo_muestra"; "Municipio"; "Li_ppm2"].

Definition sample_row (lat lon tipo mun li : cell) : row :=
  list_to_map [("latitude", lat); ("longitude", lon); ("tipo_muestra", tipo);
               ("Municipio", mun); ("Li_ppm2", li)].

(** The table as read: the second row has no readable latitude, the third
    no sample type, the fourth no municipality. *)
Definition sample_raw : DataFrame :=
  mkDataFrame sample_columns
    [ sample_row (Str "4") (Str "-74") (Str "core") (Str "Tunja") (Str "5");
      sample_row (Str "x") (Str "-73") (Str "core") (Str "Paipa") (Str "7");
      sample_row (Str "5") (Str "-73") NaN (Str "Paipa") (Str "7");
      sample_row (Str "6") (Str "-75") (Str "soil") NaN (Str "-1");
      sample_row (Str "7") (Str "-72") (Str "core") (Str "Sogamoso") (Str "bad") ].

Definition sample_csv (contents : string) : option DataFrame := Some sample_raw.

(** The table [load_data] makes of it. *)
Definition sample_clean : DataFrame :=
  mkDataFrame sample_columns
    [ sample_row (Num 4) (Num (-74)) (Str "core") (Str "Tunja") (Str "5");
      sample_row (Num 6) (Num (-75)) (Str "soil") NaN (Str "-1");
      sample_row (Num 7) (Num (-72)) (Str "core") (Str "Sogamoso") (Str "bad") ].

(** The table the filter makes of that for lithium and the type core. *)
Definition sample_filtered : DataFrame :=
  mkDataFrame sample_columns
    [ sample_row (Num 4) (Num (-74)) (Str "core") (Str "Tunja") (Num 5) ].

Definition sample_file : string := "df_transicion.csv".

(** Before the script runs: the file is there, no object yet, an empty
    page. *)
Definition sample_start : world :=
  mkWorld {[ sample_file := "latitude,longitude,tipo_muestra,Municipio,Li_ppm2" ]} [] [].

(** Without the file. *)
Definition sample_nofile : world := mkWorld ∅ [] [].

(** After [load_data]: the clean table is object 0. *)
Definition sample_loaded : world :=
  mkWorld (files sample_start) [sample_clean] [].

(** A store that holds the filtered table alone, as object 0. *)
Definition sample_drawn : world :=
  mkWorld (files sample_start) [sample_filtered] [].

(** A file without the latitude column. *)
Definition sample_nolat : DataFrame :=
  mkDataFrame ["longitude"; "tipo_muestra"; "Li_ppm2"]
    [ list_to_map [("longitude", Str "-74"); ("tipo_muestra", Str "core");
                   ("Li_ppm2", Str "5")] ].

Definition sample_start_nolat : world :=
  mkWorld {[ sample_file := "longitude,tipo_muestra,Li_ppm2" ]} [] [].

Section Pandas.

(** [pd.to_numeric] applied to one text cell: the number it reads, or
    [None] when the text is not a number.  The parser belongs to pandas; the
    script only depends on which texts are numbers. *)
Variable parse_float : string → float.

(** The table [pd.read_csv] builds from the bytes of a file, [None] when
    pandas rejects the file (empty file, tokenising error). *)
Variable parse_csv : string → option DataFrame.

(** [pd.to_numeric(_, errors='coerce')] on one cell. *)
Definition to_numeric_cell (c : cell) : cell :=
  match c with
  | NaN => NaN
  | Num x => Num x
  | Str s => match parse_float s with Some x => Num x | None => NaN end
  end.

(** [pd.to_numeric(series, errors='coerce')] *)
Definition to_numeric (s : list cell) : list cell := to_numeric_cell <$> s.

(** [series >= 0]; a comparison with NaN (or with text) is false. *)
Definition ge0_cell (c : cell) : bool :=
  match c with Num x => Qle_bool 0 x | _ => false end.

Definition ge0 (s : list cell) : list bool := ge0_cell <$> s.

(** ** The pandas calls of the script *)

(** [pd.read_csv(path)]: a new DataFrame object. *)
Definition read_csv (path : string) : M loc := λ w,
  match files w !! path with
  | None => raise (FileNotFoundError path) w
  | Some contents =>
      match parse_csv contents with
      | None => raise ParserError w
      | Some t => alloc t w
      end
  end.

(** [df[c]], read: the column as a Series. *)
Definition getitem (df : loc) (c : string) : M (list cell) :=
  t ← load df;
  if bool_decide (c ∈ columns t) then mret (cell_at c <$> rows t)
  else raise (KeyError c).

(** [df[c] = series]: updates the object in place; a new name adds a
    column. *)
Definition setitem (df : loc) (c : string) (s : list cell) : M unit :=
  t ← load df;
  store df (mkDataFrame
              (if bool_decide (c ∈ columns t) then columns t else columns t ++ [c])
              (zip_with (λ r v, <[c := v]> r) (rows t) s)).

(** The rows of [l] at which the boolean Series [mask] is true. *)
Fixpoint keep_mask {A} (l : list A) (mask : list bool) : list A :=
  match l, mask with
  | x :: l', b :: mask' =>
      if b then x :: keep_mask l' mask' else keep_mask l' mask'
  | _, _ => []
  end.

(** [df[mask]]: boolean indexing builds a new DataFrame object. *)
Definition getitem_mask (df : loc) (mask : list bool) : M loc :=
  t ← load df;
  alloc (mkDataFrame (columns t) (keep_mask (rows t) mask)).

(** [df.copy()] *)
Definition copy (df : loc) : M loc :=
  t ← load df;
  alloc t.

(** A row with a value in every column of [cs]. *)
Definition complete (cs : list string) (r : row) : bool :=
  forallb (λ c, notna (cell_at c r)) cs.

(** [df.dropna(subset=cs, inplace=True)]: updates the object in place,
    keeping the complete rows; a name of [cs] that is not a column is a
    [KeyError]. *)
Definition dropna (df : loc) (cs : list string) : M unit :=
  t ← load df;
  match list_find (λ c, c ∉ columns t) cs with
  | Some (_, c) => raise (KeyError c)
  | None => store df (mkDataFrame (columns t) (List.filter (complete cs) (rows t)))
  end.

(** [try: body except FileNotFoundError: handler] *)
Definition try_except_FileNotFoundError {A} (body : M A) (handler : M A) : M A :=
  λ w,
  match body w with
  | (inl (FileNotFoundError _), w') => handler w'
  | r => r
  end.

(** ** [load_data] (lines 17-29)

    This is the function as written, which runs on a call the cache does
    not answer; the decorator of line 16 is [st_cache_data] above and the
    decorated function is [load_data_cached] below. *)

Definition not_found_msg (file_path : string) : string :=
  "Error: El archivo '" +:+ file_path +:+
  "' no se encontró. Asegúrate de que esté en la misma carpeta que la aplicación.".

Definition load_data (file_path : string) : M (option loc) :=
  try_except_FileNotFoundError
    (df ← read_csv file_path;
     lat ← getitem df "latitude";
     setitem df "latitude" (to_numeric lat);;
     lon ← getitem df "longitude";
     setitem df "longitude" (to_numeric lon);;
     dropna df ["latitude"; "longitude"; "tipo_muestra"];;
     mret (Some df))
    (display (StError (not_found_msg file_path));;
     mret None).

(** ** The filter (lines 75-80) *)

Definition filter_data (df : loc) (selected_element_col : string)
    (selected_sample_types : list cell) : M loc :=
  tipo ← getitem df "tipo_muestra";
  sub ← getitem_mask df (isin tipo selected_sample_types);
  df_filtered ← copy sub;
  col ← getitem df_filtered selected_element_col;
  setitem df_filtered selected_element_col (to_numeric col);;
  dropna df_filtered [selected_element_col];;
  col' ← getitem df_filtered selected_element_col;
  getitem_mask df_filtered (ge0 col').

(** ** The colour scale and the markers (lines 102-129) *)

(** Lines 105-108: the colour map exists only on this branch; it is also
    the legend added to the map. *)
Definition build_colormap (selected_element_name : string)
    (min_val max_val : float) : option LinearColormap :=
  match min_val, max_val with
  | Some lo, Some hi =>
      if float_gt max_val min_val
      then Some (set_caption (scale YlOrRd_09 lo hi)
                   ("Concentración de " +:+ selected_element_name +:+ " (ppm)"))
      else None
  | _, _ => None
  end.

(** Line 113: [colormap(concentration) if 'colormap' in locals() and
    max_val > min_val else 'blue'].  [colormap] is [None] when the name was
    never bound.  The colour map compares its argument with its thresholds
    and rejects one that is not a number. *)
Definition point_color (colormap : option LinearColormap)
    (min_val max_val : float) (concentration : cell) : M color :=
  match colormap with
  | Some cm =>
      if float_gt max_val min_val
      then match concentration with
           | Num x => mret (colormap_call cm x)
           | _ => raise ValueError
           end
      else mret (ColorName "blue")
  | None => mret (ColorName "blue")
  end.

(** [row[c]] for a row of [iterrows()] *)
Definition row_item (t : DataFrame) (r : row) (c : string) : M cell :=
  if bool_decide (c ∈ columns t) then mret (cell_at c r) else raise (KeyError c).

(** One turn of the loop of lines 111-129. *)
Definition add_marker (t : DataFrame) (selected_element_col : string)
    (colormap : option LinearColormap) (min_val max_val : float)
    (r : row) : M marker :=
  concentration ← row_item t r selected_element_col;
  point_color ← point_color colormap min_val max_val concentration;
  municipio ← row_item t r "Municipio";
  tipo ← row_item t r "tipo_muestra";
  lat ← row_item t r "latitude";
  lon ← row_item t r "longitude";
  mret (mkMarker (lat, lon) point_color (municipio, tipo, concentration)).

Fixpoint for_each {A B} (f : A → M B) (l : list A) : M (list B) :=
  match l with
  | [] => mret []
  | x :: l' => y ← f x; ys ← for_each f l'; mret (y :: ys)
  end.

(** Lines 105-129 for given [min_val] and [max_val]: the legend, if any,
    and one marker per row. *)
Definition add_points (df_filtered : loc)
    (selected_element_name selected_element_col : string)
    (min_val max_val : float) : M (option LinearColormap * list marker) :=
  let colormap := build_colormap selected_element_name min_val max_val in
  t ← load df_filtered;
  ms ← for_each (add_marker t selected_element_col colormap min_val max_val) (rows t);
  mret (colormap, ms).

(** Lines 88-135. *)
Definition render_map (df_filtered : loc)
    (selected_element_name selected_element_col : string) : M unit :=
  lat ← getitem df_filtered "latitude";
  lon ← getitem df_filtered "longitude";
  let map_center := (series_mean lat, series_mean lon) in
  col ← getitem df_filtered selected_element_col;
  let min_val := series_min col in
  let max_val := series_max col in
  '(lg, ms) ← add_points df_filtered selected_element_name selected_element_col
                 min_val max_val;
  display (StFolium map_center lg ms).

(** ** The script (lines 34-135)

    The two widgets return the user's choice: an element name out of
    [element_names] and a list of sample types. *)
Definition script (data_file : string) (selected_element_name : string)
    (selected_sample_types : list cell) : M unit :=
  df ← load_data data_file;
  match df with
  | None => mret ()
  | Some df =>
      _ ← getitem df "tipo_muestra";
      let selected_element_col := element_col selected_element_name in
      match selected_sample_types with
      | [] => display (StWarning "Por favor, selecciona al menos un tipo de muestra.")
      | _ :: _ =>
          df_filtered ← filter_data df selected_element_col selected_sample_types;
          t ← load df_filtered;
          match rows t with
          | [] => display (StWarning ("No hay datos válidos para el elemento '" +:+
                                   selected_element_name +:+
                                   "' con los filtros seleccionados."))
          | _ :: _ => render_map df_filtered selected_element_name selected_element_col
          end
      end
  end.

(** ** The script with the cache

    [load_data] as the script calls it (line 34): the function under its
    decorator. *)
Definition load_data_cached (file_path : string) (c : cache) (w : world)
    : (exn + option loc) * cache * world :=
  st_cache_data load_data file_path c w.

(** Lines 36-135: what the script does with the answer of the loader. *)
Definition after_load (df : option loc) (selected_element_name : string)
    (selected_sample_types : list cell) : M unit :=
  match df with
  | None => mret ()
  | Some df =>
      _ ← getitem df "tipo_muestra";
      let selected_element_col := element_col selected_element_name in
      match selected_sample_types with
      | [] => display (StWarning "Por favor, selecciona al menos un tipo de muestra.")
      | _ :: _ =>
          df_filtered ← filter_data df selected_element_col selected_sample_types;
          t ← load df_filtered;
          match rows t with
          | [] => display (StWarning ("No hay datos válidos para el elemento '" +:+
                                   selected_element_name +:+
                                   "' con los filtros seleccionados."))
          | _ :: _ => render_map df_filtered selected_element_name selected_element_col
          end
      end
  end.

(** One run of the script in a process whose cache is [c]. *)
Definition script_cached (data_file : string) (selected_element_name : string)
    (selected_sample_types : list cell) (c : cache) (w : world)
    : (exn + unit) * cache * world :=
  match load_data_cached data_file c w with
  | (inr df, c', w') =>
      let '(r, w'') := after_load df selected_element_name selected_sample_types w' in
      (r, c', w'')
  | (inl e, c', w') => (inl e, c', w')
  end.

(** ** Derived definitions used in the statements *)

(** [df[c] = pd.to_numeric(df[c], errors='coerce')] on one row. *)
Definition coerce (c : string) (r : row) : row :=
  <[c := to_numeric_cell (cell_at c r)]> r.

Definition key_columns : list string := ["latitude"; "longitude"; "tipo_muestra"].

(** The rows [load_data] keeps, with both coordinates coerced. *)
Definition clean_rows (rs : list row) : list row :=
  List.filter (complete key_columns)
    (coerce "longitude" <$> (coerce "latitude" <$> rs)).

Definition clean (t : DataFrame) : DataFrame :=
  mkDataFrame (columns t) (clean_rows (rows t)).

(** The outcome of [load_data]: every way the loader can end, with the
    state it leaves. *)
Definition load_data_outcome (file_path : string) (w : world)
    : (exn + option loc) * world :=
  match files w !! file_path with
  | None =>
      (inr None,
       mkWorld (files w) (heap w) (page w ++ [StError (not_found_msg file_path)]))
  | Some contents =>
      match parse_csv contents with
      | None => (inl ParserError, w)
      | Some t =>
          let t1 := mkDataFrame (columns t) (coerce "latitude" <$> rows t) in
          let t2 := mkDataFrame (columns t) (coerce "longitude" <$> rows t1) in
          if bool_decide ("latitude" ∈ columns t) then
            if bool_decide ("longitude" ∈ columns t) then
              if bool_decide ("tipo_muestra" ∈ columns t) then
                (inr (Some (length (heap w))), set_heap (heap w ++ [clean t]) w)
              else (inl (KeyError "tipo_muestra"), set_heap (heap w ++ [t2]) w)
            else (inl (KeyError "longitude"), set_heap (heap w ++ [t1]) w)
          else (inl (KeyError "latitude"), set_heap (heap w ++ [t]) w)
      end
  end.

(** [series.isin(S)] on the sample type of one row. *)
Definition selected (S : list cell) (r : row) : bool :=
  existsb (cell_eqb (cell_at "tipo_muestra" r)) S.

(** The three tables the filter builds from the rows of [df]: the rows of
    the selected types, then those with the element coerced and present,
    then those whose value is not negative. *)
Definition selected_rows (S : list cell) (rs : list row) : list row :=
  List.filter (selected S) rs.

Definition numeric_rows (e : string) (S : list cell) (rs : list row) : list row :=
  List.filter (complete [e]) (coerce e <$> selected_rows S rs).

Definition filter_rows (e : string) (S : list cell) (rs : list row) : list row :=
  List.filter (λ r, ge0_cell (cell_at e r)) (numeric_rows e S rs).

(** The outcome of [filter_data] on the table [t] stored at [df]. *)
Definition filter_data_outcome (t : DataFrame) (e : string) (S : list cell)
    (w : world) : (exn + loc) * world :=
  let sub := mkDataFrame (columns t) (selected_rows S (rows t)) in
  if bool_decide ("tipo_muestra" ∈ columns t) then
    if bool_decide (e ∈ columns t) then
      (inr (2 + length (heap w)),
       set_heap (heap w ++ [sub;
                            mkDataFrame (columns t) (numeric_rows e S (rows t));
                            mkDataFrame (columns t) (filter_rows e S (rows t))]) w)
    else (inl (KeyError e), set_heap (heap w ++ [sub; sub]) w)
  else (inl (KeyError "tipo_muestra"), w).

(** The table a run ends on, read from the final store. *)
Definition table_of (r : (exn + loc) * world) : exn + DataFrame :=
  match r with
  | (inl e, _) => inl e
  | (inr l, w') =>
      match heap w' !! l with Some t => inr t | None => inl NameError end
  end.

Definition loaded_table (r : (exn + option loc) * world) : exn + option DataFrame :=
  match r with
  | (inl e, _) => inl e
  | (inr None, _) => inr None
  | (inr (Some l), w') =>
      match heap w' !! l with Some t => inr (Some t) | None => inl NameError end
  end.

(** The cache after a first run that found the sample file, and after a
    first run that found no file. *)
Definition sample_cache_table : cache :=
  {[ sample_file := mkCached (Some sample_clean) [] ]}.

Definition sample_cache_none : cache :=
  {[ sample_file := mkCached None [StError (not_found_msg sample_file)] ]}.


(** Membership of a sample type in the selection, as [isin] decides it. *)
Definition type_in (c : cell) (S : list cell) : Prop :=
  ∃ s, s ∈ S ∧ cell_eqb c s = true.

(** The loader's verdict on one raw row: both coordinates coerce to a
    number and the sample type is present. *)
Definition is_num (c : cell) : bool :=
  match c with Num _ => true | _ => false end.

Definition retained (r : row) : bool :=
  is_num (to_numeric_cell (cell_at "latitude" r)) &&
  is_num (to_numeric_cell (cell_at "longitude" r)) &&
  notna (cell_at "tipo_muestra" r).

(** The filter's verdict on one row of the clean table. *)
Definition passes (e : string) (S : list cell) (r : row) : bool :=
  selected S r && ge0_cell (to_numeric_cell (cell_at e r)).

(** What [load_data] returns, as a function of the file alone. *)
Definition load_table (entry : option string) : exn + option DataFrame :=
  match entry with
  | None => inr None
  | Some contents =>
      match parse_csv contents with
      | None => inl ParserError
      | Some t =>
          if bool_decide ("latitude" ∈ columns t) then
            if bool_decide ("longitude" ∈ columns t) then
              if bool_decide ("tipo_muestra" ∈ columns t) then inr (Some (clean t))
              else inl (KeyError "tipo_muestra")
            else inl (KeyError "longitude")
          else inl (KeyError "latitude")
      end
  end.

(** The columns one turn of the marker loop reads. *)
Definition marker_columns (selected_element_col : string) : list string :=
  [selected_element_col; "Municipio"; "tipo_muestra"; "latitude"; "longitude"].

(** The marker of a row when the colour map is not in use. *)
Definition blue_marker (selected_element_col : string) (r : row) : marker :=
  mkMarker (cell_at "latitude" r, cell_at "longitude" r) (ColorName "blue")
    (cell_at "Municipio" r, cell_at "tipo_muestra" r, cell_at selected_element_col r).

(** The filter's test on the element alone: the value coerces to a number
    that is not negative. *)
Definition element_ok (e : string) (r : row) : bool :=
  ge0_cell (to_numeric_cell (cell_at e r)).


(** * Proofs *)

(** ** Running the pandas calls *)

Lemma bind_run {A B} (m : M A) (f : A → M B) w :
  (m ≫= f) w =
  match m w with (inr x, w') => f x w' | (inl e, w') => (inl e, w') end.
Proof. reflexivity. Qed.

Lemma set_heap_heap h w : heap (set_heap h w) = h.
Proof. done. Qed.

Lemma set_heap_set_heap h h' w : set_heap h (set_heap h' w) = set_heap h w.
Proof. done. Qed.

Lemma lookup_snoc {A} (h : list A) (x : A) : (h ++ [x]) !! length h = Some x.
Proof. by rewrite lookup_app_r, Nat.sub_diag by lia. Qed.

Lemma insert_snoc {A} (h : list A) (x y : A) :
  <[length h := y]> (h ++ [x]) = h ++ [y].
Proof.
  rewrite insert_app_r_alt by lia. by rewrite Nat.sub_diag.
Qed.

Lemma keep_mask_fmap {A} (f : A → bool) (l : list A) :
  keep_mask l (f <$> l) = List.filter f l.
Proof.
  induction l as [|x l IH]; simpl; [done|].
  destruct (f x); [f_equal|]; exact IH.
Qed.

Lemma zip_with_insert_fmap (c : string) (f : row → cell) (rs : list row) :
  zip_with (λ r v, <[c := v]> r) rs (f <$> rs) = (λ r, <[c := f r]> r) <$> rs.
Proof. induction rs as [|r rs IH]; simpl; [done|]. f_equal. exact IH. Qed.

Lemma load_run df t w :
  heap w !! df = Some t → load df w = (inr t, w).
Proof. intros H. unfold load. by rewrite H. Qed.

Lemma getitem_run df c t w :
  heap w !! df = Some t → c ∈ columns t →
  getitem df c w = (inr (cell_at c <$> rows t), w).
Proof.
  intros H Hc. unfold getitem. rewrite bind_run, (load_run _ _ _ H).
  by rewrite bool_decide_eq_true_2.
Qed.

Lemma getitem_missing df c t w :
  heap w !! df = Some t → c ∉ columns t →
  getitem df c w = (inl (KeyError c), w).
Proof.
  intros H Hc. unfold getitem. rewrite bind_run, (load_run _ _ _ H).
  by rewrite bool_decide_eq_false_2.
Qed.

Lemma coerce_run df c t s w :
  heap w !! df = Some t → c ∈ columns t → s = cell_at c <$> rows t →
  setitem df c (to_numeric s) w =
  (inr (), set_heap (<[df := mkDataFrame (columns t) (coerce c <$> rows t)]> (heap w)) w).
Proof.
  intros H Hc ->. unfold setitem. rewrite bind_run, (load_run _ _ _ H).
  rewrite bool_decide_eq_true_2 by done. unfold store, to_numeric.
  rewrite <- list_fmap_compose.
  by rewrite (zip_with_insert_fmap c (to_numeric_cell ∘ cell_at c)).
Qed.

Lemma dropna_run df cs t w :
  heap w !! df = Some t → Forall (λ c, c ∈ columns t) cs →
  dropna df cs w =
  (inr (), set_heap (<[df := mkDataFrame (columns t)
                              (List.filter (complete cs) (rows t))]> (heap w)) w).
Proof.
  intros H Hcs. unfold dropna. rewrite bind_run, (load_run _ _ _ H).
  destruct (list_find _ cs) as [[i c]|] eqn:E; [|done].
  apply list_find_Some in E as (Hi & Hc & _).
  rewrite Forall_lookup in Hcs. by specialize (Hcs _ _ Hi).
Qed.

Lemma getitem_mask_run df mask t w :
  heap w !! df = Some t →
  getitem_mask df mask w =
  (inr (length (heap w)),
   set_heap (heap w ++ [mkDataFrame (columns t) (keep_mask (rows t) mask)]) w).
Proof. intros H. unfold getitem_mask. by rewrite bind_run, (load_run _ _ _ H). Qed.

Lemma copy_run df t w :
  heap w !! df = Some t →
  copy df w = (inr (length (heap w)), set_heap (heap w ++ [t]) w).
Proof. intros H. unfold copy. by rewrite bind_run, (load_run _ _ _ H). Qed.

Ltac heap_step :=
  rewrite ?set_heap_heap, ?set_heap_set_heap, ?insert_snoc.

Ltac run_with lem :=
  rewrite bind_run; cbv beta iota;
  erewrite lem by (first [apply lookup_snoc | done]);
  cbv beta iota; simpl columns; simpl rows; heap_step.

(** ** The loader, run *)

Lemma load_data_run file_path contents t w :
  files w !! file_path = Some contents →
  parse_csv contents = Some t →
  Forall (λ c, c ∈ columns t) key_columns →
  load_data file_path w =
  (inr (Some (length (heap w))), set_heap (heap w ++ [clean t]) w).
Proof.
  intros Hf Hp Hcs.
  pose proof Hcs as Hcs'. unfold key_columns in Hcs'.
  rewrite !Forall_cons in Hcs'. destruct Hcs' as (Hlat & Hlon & Htipo & _).
  unfold load_data, try_except_FileNotFoundError.
  rewrite bind_run. unfold read_csv at 1. rewrite Hf, Hp. unfold alloc at 1.
  run_with getitem_run. run_with coerce_run.
  run_with getitem_run. run_with coerce_run.
  run_with dropna_run. done.
Qed.

Lemma load_data_not_found file_path w :
  files w !! file_path = None →
  load_data file_path w =
  (inr None, mkWorld (files w) (heap w) (page w ++ [StError (not_found_msg file_path)])).
Proof.
  intros Hf. unfold load_data, try_except_FileNotFoundError.
  rewrite bind_run. unfold read_csv at 1. by rewrite Hf.
Qed.

Lemma dropna_missing df cs t i c w :
  heap w !! df = Some t → list_find (λ c, c ∉ columns t) cs = Some (i, c) →
  dropna df cs w = (inl (KeyError c), w).
Proof.
  intros H E. unfold dropna. rewrite bind_run, (load_run _ _ _ H).
  cbv beta iota. by rewrite E.
Qed.

Lemma load_data_outcome_eq file_path w :
  load_data file_path w = load_data_outcome file_path w.
Proof.
  unfold load_data_outcome.
  destruct (files w !! file_path) as [contents|] eqn:Hf;
    [|by apply load_data_not_found].
  destruct (parse_csv contents) as [t|] eqn:Hp.
  2:{ unfold load_data, try_except_FileNotFoundError.
      rewrite bind_run. unfold read_csv at 1. by rewrite Hf, Hp. }
  repeat case_bool_decide.
  - apply (load_data_run _ contents); [done..|].
    unfold key_columns. by repeat constructor.
  - unfold load_data, try_except_FileNotFoundError.
    rewrite bind_run. unfold read_csv at 1. rewrite Hf, Hp. unfold alloc at 1.
    run_with getitem_run. run_with coerce_run.
    run_with getitem_run. run_with coerce_run.
    rewrite bind_run.
    erewrite (dropna_missing _ _ _ 2 "tipo_muestra"); [done|apply lookup_snoc|].
    simpl. rewrite !decide_False, decide_True by (simpl; tauto). done.
  - unfold load_data, try_except_FileNotFoundError.
    rewrite bind_run. unfold read_csv at 1. rewrite Hf, Hp. unfold alloc at 1.
    run_with getitem_run. run_with coerce_run.
    rewrite bind_run. erewrite getitem_missing; [done|apply lookup_snoc|done].
  - unfold load_data, try_except_FileNotFoundError.
    rewrite bind_run. unfold read_csv at 1. rewrite Hf, Hp. unfold alloc at 1.
    rewrite bind_run. erewrite getitem_missing; [done|apply lookup_snoc|done].
Qed.

(** ** The filter, run *)

Lemma isin_mask (S : list cell) (rs : list row) :
  keep_mask rs (isin (cell_at "tipo_muestra" <$> rs) S) = selected_rows S rs.
Proof.
  unfold isin, selected_rows. rewrite <- list_fmap_compose.
  apply (keep_mask_fmap (selected S)).
Qed.

Lemma ge0_mask (e : string) (rs : list row) :
  keep_mask rs (ge0 (cell_at e <$> rs)) = List.filter (λ r, ge0_cell (cell_at e r)) rs.
Proof.
  unfold ge0. rewrite <- list_fmap_compose.
  apply (keep_mask_fmap (λ r, ge0_cell (cell_at e r))).
Qed.

Lemma filter_data_outcome_eq df t e S w :
  heap w !! df = Some t →
  filter_data df e S w = filter_data_outcome t e S w.
Proof.
  intros Hdf. unfold filter_data, filter_data_outcome.
  case_bool_decide as Htipo.
  2:{ rewrite bind_run. by erewrite getitem_missing. }
  run_with getitem_run.
  run_with getitem_mask_run. rewrite isin_mask.
  run_with copy_run.
  destruct (bool_decide_reflect (e ∈ columns t)) as [He|He].
  2:{ rewrite bind_run. erewrite getitem_missing; [|apply lookup_snoc|done].
      by rewrite <- app_assoc. }
  run_with getitem_run. run_with coerce_run.
  assert (Forall (λ c, c ∈ columns t) [e]) by (by repeat constructor).
  run_with dropna_run.
  run_with getitem_run.
  erewrite getitem_mask_run by apply lookup_snoc.
  simpl columns; simpl rows; heap_step. rewrite ge0_mask.
  rewrite !length_app, <- !app_assoc. simpl. f_equal. f_equal. lia.
Qed.

(** ** Rows and cells *)

Lemma elem_of_List_filter {A} (f : A → bool) (l : list A) (x : A) :
  x ∈ List.filter f l ↔ x ∈ l ∧ f x = true.
Proof. rewrite !list_elem_of_In. apply filter_In. Qed.

Lemma sublist_List_filter {A} (f : A → bool) (l : list A) :
  sublist (List.filter f l) l.
Proof.
  induction l as [|x l IH]; simpl; [constructor|].
  destruct (f x); by constructor.
Qed.

Lemma List_filter_fmap {A B} (g : A → B) (f : B → bool) (l : list A) :
  List.filter f (g <$> l) = g <$> List.filter (f ∘ g) l.
Proof.
  induction l as [|x l IH]; simpl; [done|].
  unfold compose at 1. destruct (f (g x)); simpl; [f_equal|]; exact IH.
Qed.

Lemma List_filter_filter {A} (f g : A → bool) (l : list A) :
  List.filter f (List.filter g l) = List.filter (λ x, g x && f x) l.
Proof.
  induction l as [|x l IH]; simpl; [done|].
  destruct (g x); simpl; [destruct (f x); [f_equal|]|]; exact IH.
Qed.

Lemma List_filter_ext {A} (f g : A → bool) (l : list A) :
  (∀ x, f x = g x) → List.filter f l = List.filter g l.
Proof. intros H. induction l as [|x l IH]; simpl; [done|]. by rewrite H, IH. Qed.

Lemma cell_at_insert_eq c v (r : row) : cell_at c (<[c := v]> r) = v.
Proof. unfold cell_at. by rewrite lookup_insert_eq. Qed.

Lemma cell_at_insert_ne c c' v (r : row) :
  c ≠ c' → cell_at c' (<[c := v]> r) = cell_at c' r.
Proof. intros H. unfold cell_at. by rewrite lookup_insert_ne. Qed.

Lemma cell_at_coerce_eq c r : cell_at c (coerce c r) = to_numeric_cell (cell_at c r).
Proof. apply cell_at_insert_eq. Qed.

Lemma cell_at_coerce_ne c c' r : c ≠ c' → cell_at c' (coerce c r) = cell_at c' r.
Proof. apply cell_at_insert_ne. Qed.

Lemma to_numeric_cell_idemp c : to_numeric_cell (to_numeric_cell c) = to_numeric_cell c.
Proof. destruct c as [|x|s]; simpl; [done..|]. by destruct (parse_float s). Qed.

Lemma notna_to_numeric_cell c :
  notna (to_numeric_cell c) = is_num (to_numeric_cell c).
Proof. destruct c as [|x|s]; simpl; [done..|]. by destruct (parse_float s). Qed.

Lemma is_num_spec c : is_num c = true ↔ ∃ x, c = Num x.
Proof.
  destruct c; simpl; split; intros H; eauto; try done; by destruct H.
Qed.

Lemma notna_spec c : notna c = true ↔ c ≠ NaN.
Proof. by destruct c. Qed.


Lemma selected_spec S r : selected S r = true ↔ type_in (cell_at "tipo_muestra" r) S.
Proof.
  unfold selected, type_in. rewrite existsb_exists.
  by setoid_rewrite list_elem_of_In.
Qed.

Lemma clean_rows_eq rs :
  clean_rows rs = (coerce "longitude" ∘ coerce "latitude") <$> List.filter retained rs.
Proof.
  unfold clean_rows. rewrite <- list_fmap_compose, List_filter_fmap.
  f_equal. apply List_filter_ext. intros r.
  unfold compose, complete, key_columns, retained. simpl.
  rewrite cell_at_coerce_eq.
  rewrite !(cell_at_coerce_ne "longitude"), cell_at_coerce_eq by done.
  rewrite (cell_at_coerce_ne "latitude") by done.
  rewrite (cell_at_coerce_ne "latitude") by done.
  by rewrite andb_true_r, andb_assoc, !notna_to_numeric_cell.
Qed.

Lemma filter_rows_eq e S rs :
  filter_rows e S rs = coerce e <$> List.filter (passes e S) rs.
Proof.
  unfold filter_rows, numeric_rows, selected_rows.
  rewrite List_filter_filter, List_filter_fmap, List_filter_filter.
  f_equal. apply List_filter_ext. intros r.
  unfold compose, complete, passes. simpl. rewrite cell_at_coerce_eq.
  rewrite andb_true_r, notna_to_numeric_cell.
  by destruct (selected S r), (to_numeric_cell (cell_at e r)).
Qed.

Lemma lookup_third {A} (h : list A) (a b c : A) :
  (h ++ [a; b; c]) !! (2 + length h) = Some c.
Proof.
  rewrite lookup_app_r by lia.
  by replace (2 + length h - length h) with 2 by lia.
Qed.


Lemma table_of_filter_data df t e S w :
  heap w !! df = Some t → "tipo_muestra" ∈ columns t → e ∈ columns t →
  table_of (filter_data df e S w) =
  inr (mkDataFrame (columns t) (filter_rows e S (rows t))).
Proof.
  intros Hdf Htipo He. rewrite (filter_data_outcome_eq _ t) by done.
  unfold filter_data_outcome. rewrite !bool_decide_eq_true_2 by done.
  unfold table_of. by rewrite set_heap_heap, lookup_third.
Qed.

Lemma loaded_table_load_data file_path w :
  loaded_table (load_data file_path w) = load_table (files w !! file_path).
Proof.
  rewrite load_data_outcome_eq. unfold load_data_outcome, load_table.
  destruct (files w !! file_path) as [contents|]; [|done].
  destruct (parse_csv contents) as [t|]; [|done].
  repeat case_bool_decide; try done.
  unfold loaded_table. by rewrite set_heap_heap, lookup_snoc.
Qed.

(** ** The loader *)

(** C2. With the file in place and the three key columns in its header,
    [load_data] returns a table whose rows are exactly the raw rows whose
    latitude and longitude both coerce to a number and whose sample type is
    present, in the order of the file, each with the two coordinates
    replaced by their coerced values.  A raw row is kept if and only if it
    meets these three conditions (whatever its other fields hold), and
    every kept row has numeric coordinates and a sample type. *)
Theorem load_data_retains file_path contents t w :
  files w !! file_path = Some contents →
  parse_csv contents = Some t →
  Forall (λ c, c ∈ columns t) key_columns →
  ∃ ct, loaded_table (load_data file_path w) = inr (Some ct) ∧
    rows ct = (coerce "longitude" ∘ coerce "latitude") <$> List.filter retained (rows t) ∧
    (∀ r, retained r = true ↔
          (∃ x, to_numeric_cell (cell_at "latitude" r) = Num x) ∧
          (∃ y, to_numeric_cell (cell_at "longitude" r) = Num y) ∧
          cell_at "tipo_muestra" r ≠ NaN) ∧
    (∀ r, r ∈ rows t →
          ((coerce "longitude" ∘ coerce "latitude") r ∈ rows ct ↔ retained r = true)) ∧
    (∀ r', r' ∈ rows ct →
          (∃ x, cell_at "latitude" r' = Num x) ∧
          (∃ y, cell_at "longitude" r' = Num y) ∧
          cell_at "tipo_muestra" r' ≠ NaN).
Proof.
  intros Hf Hp Hcs. exists (clean t).
  assert (∀ r, retained r = true ↔
          (∃ x, to_numeric_cell (cell_at "latitude" r) = Num x) ∧
          (∃ y, to_numeric_cell (cell_at "longitude" r) = Num y) ∧
          cell_at "tipo_muestra" r ≠ NaN) as Hret.
  { intros r. unfold retained.
    rewrite !andb_true_iff, !is_num_spec, notna_spec. tauto. }
  assert (∀ r, retained (coerce "longitude" (coerce "latitude" r)) = retained r)
    as Hco.
  { intros r. unfold retained.
    rewrite cell_at_coerce_eq, !(cell_at_coerce_ne "longitude") by done.
    rewrite cell_at_coerce_eq, !(cell_at_coerce_ne "latitude") by done.
    by rewrite !to_numeric_cell_idemp. }
  assert (∀ r, retained r = true →
          (∃ x, cell_at "latitude" ((coerce "longitude" ∘ coerce "latitude") r) = Num x) ∧
          (∃ y, cell_at "longitude" ((coerce "longitude" ∘ coerce "latitude") r) = Num y) ∧
          cell_at "tipo_muestra" ((coerce "longitude" ∘ coerce "latitude") r) ≠ NaN)
    as Hvalid.
  { intros r Hr. apply Hret in Hr. unfold compose.
    rewrite cell_at_coerce_eq, !(cell_at_coerce_ne "longitude") by done.
    by rewrite cell_at_coerce_eq, !(cell_at_coerce_ne "latitude") by done. }
  split; [|split; [|split; [|split]]].
  - rewrite loaded_table_load_data, Hf. unfold load_table. rewrite Hp.
    unfold key_columns in Hcs. rewrite !Forall_cons in Hcs.
    destruct Hcs as (? & ? & ? & _). by rewrite !bool_decide_eq_true_2.
  - apply clean_rows_eq.
  - exact Hret.
  - intros r Hr. simpl. rewrite clean_rows_eq. split.
    + intros (r0 & Heq & H0)%list_elem_of_fmap.
      apply elem_of_List_filter in H0 as [_ H0]. unfold compose in Heq.
      by rewrite <- Hco, Heq, Hco.
    + intros H. apply list_elem_of_fmap. exists r. split; [done|].
      by apply elem_of_List_filter.
  - intros r'. simpl. rewrite clean_rows_eq.
    intros (r & -> & Hr)%list_elem_of_fmap.
    apply elem_of_List_filter in Hr as [_ Hr]. by apply Hvalid.
Qed.

(** The function as written, run: it answers [None], with the error
    message on the page, exactly when the file does not exist; the script
    without the cache then stops with that one message added and the store
    untouched. *)
Lemma load_data_not_found_iff file_path w :
  ((load_data file_path w).1 = inr None ↔ files w !! file_path = None) ∧
  (files w !! file_path = None →
     load_data file_path w =
       (inr None,
        mkWorld (files w) (heap w) (page w ++ [StError (not_found_msg file_path)])) ∧
     ∀ name S,
       script file_path name S w =
       (inr (),
        mkWorld (files w) (heap w) (page w ++ [StError (not_found_msg file_path)]))) ∧
  (is_Some (files w !! file_path) → page (load_data file_path w).2 = page w).
Proof.
  split; [|split].
  - rewrite load_data_outcome_eq. unfold load_data_outcome.
    destruct (files w !! file_path) as [contents|]; [|done].
    split; [|done]. destruct (parse_csv contents); [|done].
    by repeat case_bool_decide.
  - intros Hf. split; [by apply load_data_not_found|].
    intros name S. unfold script.
    by rewrite bind_run, load_data_not_found.
  - intros [contents Hf]. rewrite load_data_outcome_eq. unfold load_data_outcome.
    rewrite Hf. destruct (parse_csv contents); [|done].
    by repeat case_bool_decide.
Qed.

(** The function as written, run: what it returns depends on the contents
    of the file only. *)
Lemma load_data_deterministic file_path w1 w2 :
  files w1 !! file_path = files w2 !! file_path →
  loaded_table (load_data file_path w1) = loaded_table (load_data file_path w2).
Proof. intros H. by rewrite !loaded_table_load_data, H. Qed.

(** ** The loader under its cache *)

Lemma cached_hit file_path entry c w :
  c !! file_path = Some entry →
  load_data_cached file_path c w =
  match cached_value entry with
  | None =>
      (inr None, c,
       mkWorld (files w) (heap w) (page w ++ cached_messages entry))
  | Some t =>
      (inr (Some (length (heap w))), c,
       mkWorld (files w) (heap w ++ [t]) (page w ++ cached_messages entry))
  end.
Proof.
  intros H. unfold load_data_cached, st_cache_data. rewrite H.
  by destruct (cached_value entry).
Qed.



(** A call the cache does not answer and that finds no file. *)
Lemma cached_miss_not_found file_path c w :
  c !! file_path = None → files w !! file_path = None →
  load_data_cached file_path c w =
  (inr None,
   <[file_path := mkCached None [StError (not_found_msg file_path)]]> c,
   mkWorld (files w) (heap w) (page w ++ [StError (not_found_msg file_path)])).
Proof.
  intros H Hf. unfold load_data_cached, st_cache_data. rewrite H.
  rewrite (load_data_not_found _ _ Hf). simpl. by rewrite drop_app_length.
Qed.

(** A call the cache does not answer and that finds the file: it does not
    answer [None] and writes nothing. *)
Lemma cached_miss_found file_path contents c w :
  c !! file_path = None → files w !! file_path = Some contents →
  (load_data_cached file_path c w).1.1 ≠ inr None ∧
  page (load_data_cached file_path c w).2 = page w.
Proof.
  intros H Hf. unfold load_data_cached, st_cache_data. rewrite H.
  rewrite load_data_outcome_eq. unfold load_data_outcome. rewrite Hf.
  destruct (parse_csv contents) as [t|]; [|done].
  repeat case_bool_decide; try done.
  by rewrite set_heap_heap, lookup_snoc.
Qed.

(** C6 (as the code has it).  A call of the loader that the cache does not
    answer returns [None], with the error message on the page, exactly when
    the file does not exist, and the cache keeps that answer; when the file
    exists the call writes nothing.  A call the cache answers repeats the
    cached answer and messages whatever the file system holds now.
    Whenever the answer is [None], no table has been created and the script
    stops there: the run ends normally in the state the loader left. *)
Theorem load_data_cached_not_found file_path c w :
  (c !! file_path = None →
     ((load_data_cached file_path c w).1.1 = inr None ↔
        files w !! file_path = None) ∧
     (files w !! file_path = None →
        load_data_cached file_path c w =
        (inr None,
         <[file_path := mkCached None [StError (not_found_msg file_path)]]> c,
         mkWorld (files w) (heap w)
           (page w ++ [StError (not_found_msg file_path)]))) ∧
     (is_Some (files w !! file_path) →
        page (load_data_cached file_path c w).2 = page w)) ∧
  (∀ entry, c !! file_path = Some entry →
     load_data_cached file_path c w =
     match cached_value entry with
     | None =>
         (inr None, c,
          mkWorld (files w) (heap w) (page w ++ cached_messages entry))
     | Some t =>
         (inr (Some (length (heap w))), c,
          mkWorld (files w) (heap w ++ [t]) (page w ++ cached_messages entry))
     end) ∧
  (∀ c' w', load_data_cached file_path c w = (inr None, c', w') →
     heap w' = heap w ∧ files w' = files w ∧
     ∀ name S, script_cached file_path name S c w = (inr (), c', w')).
Proof.
  split; [|split].
  - intros H. split; [|split].
    + destruct (files w !! file_path) as [contents|] eqn:Hf.
      * destruct (cached_miss_found _ _ _ _ H Hf) as [Hne _]. by split.
      * by rewrite (cached_miss_not_found _ _ _ H Hf).
    + by apply cached_miss_not_found.
    + intros [contents Hf]. by apply (cached_miss_found _ contents).
  - intros entry H. by apply cached_hit.
  - intros c' w' Hret. split; [|split].
    + destruct (c !! file_path) as [entry|] eqn:H.
      * rewrite (cached_hit _ _ _ _ H) in Hret.
        destruct (cached_value entry); by inversion Hret.
      * destruct (files w !! file_path) as [contents|] eqn:Hf.
        -- destruct (cached_miss_found _ _ _ _ H Hf) as [Hne _].
           by rewrite Hret in Hne.
        -- rewrite (cached_miss_not_found _ _ _ H Hf) in Hret. by inversion Hret.
    + destruct (c !! file_path) as [entry|] eqn:H.
      * rewrite (cached_hit _ _ _ _ H) in Hret.
        destruct (cached_value entry); by inversion Hret.
      * destruct (files w !! file_path) as [contents|] eqn:Hf.
        -- destruct (cached_miss_found _ _ _ _ H Hf) as [Hne _].
           by rewrite Hret in Hne.
        -- rewrite (cached_miss_not_found _ _ _ H Hf) in Hret. by inversion Hret.
    + intros name S. unfold script_cached. by rewrite Hret.
Qed.


(** ** The filter *)


(** C7.  The table the filter returns is a function of the input table,
    the element and the selection: two runs on equal tables, wherever they
    are stored and whatever else the store holds, return equal tables (or
    raise the same exception).  Its rows are a subsequence of the input
    rows, in the input order, each with the element column coerced. *)
Theorem filter_data_deterministic_ordered df1 df2 t e S w1 w2 :
  heap w1 !! df1 = Some t → heap w2 !! df2 = Some t →
  table_of (filter_data df1 e S w1) = table_of (filter_data df2 e S w2) ∧
  ∀ out, table_of (filter_data df1 e S w1) = inr out →
    ∃ kept, sublist kept (rows t) ∧ rows out = coerce e <$> kept.
Proof.
  intros H1 H2. rewrite !(filter_data_outcome_eq _ t) by done.
  unfold filter_data_outcome.
  repeat case_bool_decide; unfold table_of; rewrite ?set_heap_heap, ?lookup_third;
    (split; [done|]); intros out [= <-].
  simpl. rewrite filter_rows_eq. eexists. split; [|done].
  apply sublist_List_filter.
Qed.

(** C5.  The filter writes to the objects it creates only: every
    DataFrame of the store it starts from, the clean table among them, is
    the same object with the same rows and columns afterwards, whether the
    filter returns or raises; the files and the page are untouched; and the
    table it returns, which holds the coerced values, is at a new address. *)
Theorem filter_data_frame df e S w :
  (∀ l t, heap w !! l = Some t → heap (filter_data df e S w).2 !! l = Some t) ∧
  files (filter_data df e S w).2 = files w ∧
  page (filter_data df e S w).2 = page w ∧
  (∀ out, (filter_data df e S w).1 = inr out → (length (heap w) ≤ out)%nat).
Proof.
  destruct (heap w !! df) as [t|] eqn:Hdf.
  - rewrite (filter_data_outcome_eq _ t) by done. unfold filter_data_outcome.
    repeat case_bool_decide; simpl; repeat split; try done;
      try (intros l t' Hl; by apply lookup_app_l_Some);
      intros out [= <-]; lia.
  - assert (filter_data df e S w = (inl NameError, w)) as ->.
    { unfold filter_data, getitem, load. by rewrite !bind_run, Hdf. }
    by repeat split.
Qed.

(** ** The colour scale *)

Lemma Qlt_bool_iff x y : Qlt_bool x y = true ↔ (x < y)%Q.
Proof.
  unfold Qlt_bool. rewrite negb_true_iff, <- not_true_iff_false, Qle_bool_iff.
  split; [apply Qnot_le_lt | apply Qlt_not_le].
Qed.

Lemma Qlt_bool_false x y : Qlt_bool x y = false ↔ (y <= x)%Q.
Proof. unfold Qlt_bool. by rewrite negb_false_iff, Qle_bool_iff. Qed.

Lemma numbers_Num (l : list Q) : numbers (Num <$> l) = l.
Proof.
  induction l as [|x l IH]; [done|].
  change (numbers (Num <$> x :: l)) with (x :: numbers (Num <$> l)).
  by rewrite IH.
Qed.

Lemma foldl_min_le_max (l : list Q) (a b : Q) :
  (a <= b)%Q → (foldl Qmin a l <= foldl Qmax b l)%Q.
Proof.
  revert a b. induction l as [|x l IH]; intros a b Hab; simpl; [done|].
  apply IH. apply (Qle_trans _ a); [apply Q.le_min_l|].
  apply (Qle_trans _ b); [exact Hab|]. apply Q.le_max_l.
Qed.

Lemma series_min_le_max (v0 : Q) (values : list Q) :
  ∃ lo hi, series_min (Num <$> v0 :: values) = Some lo ∧
           series_max (Num <$> v0 :: values) = Some hi ∧ (lo <= hi)%Q.
Proof.
  unfold series_min, series_max. rewrite numbers_Num.
  eexists _, _. split; [done|]. split; [done|].
  apply foldl_min_le_max. apply Qle_refl.
Qed.

Lemma build_colormap_None name min_val max_val :
  float_gt max_val min_val = false → build_colormap name min_val max_val = None.
Proof. intros H. unfold build_colormap. rewrite H. by destruct min_val, max_val. Qed.

Lemma build_colormap_Some name min_val max_val cm :
  build_colormap name min_val max_val = Some cm →
  ∃ lo hi, min_val = Some lo ∧ max_val = Some hi ∧ (lo < hi)%Q.
Proof.
  unfold build_colormap. destruct min_val as [lo|], max_val as [hi|]; try done.
  destruct (float_gt _ _) eqn:E; [|done]. intros _.
  exists lo, hi. by apply Qlt_bool_iff in E.
Qed.

Lemma point_color_blue colormap min_val max_val c w :
  float_gt max_val min_val = false →
  point_color colormap min_val max_val c w = (inr (ColorName "blue"), w).
Proof. intros H. unfold point_color. rewrite H. by destruct colormap. Qed.

Lemma row_item_run t r c w :
  c ∈ columns t → row_item t r c w = (inr (cell_at c r), w).
Proof. intros H. unfold row_item. by rewrite bool_decide_eq_true_2. Qed.

Lemma add_marker_blue t e colormap min_val max_val r w :
  Forall (λ c, c ∈ columns t) (marker_columns e) →
  float_gt max_val min_val = false →
  add_marker t e colormap min_val max_val r w = (inr (blue_marker e r), w).
Proof.
  intros Hcs Hgt. unfold marker_columns in Hcs. rewrite !Forall_cons in Hcs.
  destruct Hcs as (? & ? & ? & ? & ? & _). unfold add_marker.
  rewrite bind_run, row_item_run by done. cbv beta iota.
  rewrite bind_run, point_color_blue by done. cbv beta iota.
  repeat (rewrite bind_run, row_item_run by done; cbv beta iota).
  done.
Qed.

Lemma for_each_run {A B} (f : A → M B) (g : A → B) (l : list A) w :
  (∀ x w, f x w = (inr (g x), w)) → for_each f l w = (inr (g <$> l), w).
Proof.
  intros H. induction l as [|x l IH]; simpl; [done|].
  by rewrite bind_run, H, bind_run, IH.
Qed.

(** Without [max_val > min_val] the loop draws every point in blue and
    there is no legend; nothing is raised. *)
Lemma add_points_blue df t name e min_val max_val w :
  heap w !! df = Some t →
  Forall (λ c, c ∈ columns t) (marker_columns e) →
  float_gt max_val min_val = false →
  add_points df name e min_val max_val w = (inr (None, blue_marker e <$> rows t), w).
Proof.
  intros Hdf Hcs Hgt. unfold add_points.
  rewrite bind_run, (load_run _ _ _ Hdf). cbv beta iota.
  rewrite bind_run, (for_each_run _ (blue_marker e)).
  - by rewrite build_colormap_None.
  - intros r w'. by apply add_marker_blue.
Qed.

(** C3.  When the smallest and the largest value of a non-empty sequence
    are equal, a single value included, no colour map is built, so there is
    no legend, and the colour of every point, whatever its value, is the
    fixed name blue; the loop over the rows then yields one blue marker per
    row.  A colour map, hence a legend, exists only if the largest value
    exceeds the smallest. *)
Theorem degenerate_scale_is_blue name (v0 : Q) (values : list Q) lo hi :
  series_min (Num <$> v0 :: values) = Some lo →
  series_max (Num <$> v0 :: values) = Some hi →
  (lo == hi)%Q →
  build_colormap name (Some lo) (Some hi) = None ∧
  (∀ colormap c w,
     point_color colormap (Some lo) (Some hi) c w = (inr (ColorName "blue"), w)) ∧
  (∀ df t e w,
     heap w !! df = Some t → Forall (λ c, c ∈ columns t) (marker_columns e) →
     add_points df name e (Some lo) (Some hi) w =
       (inr (None, blue_marker e <$> rows t), w)) ∧
  series_min [Num v0] = series_max [Num v0] ∧
  (∀ min_val max_val cm,
     build_colormap name min_val max_val = Some cm →
     ∃ lo' hi', min_val = Some lo' ∧ max_val = Some hi' ∧ (lo' < hi')%Q).
Proof.
  intros _ _ Heq.
  assert (float_gt (Some hi) (Some lo) = false) as Hgt.
  { simpl. apply Qlt_bool_false. rewrite Heq. apply Qle_refl. }
  split; [by apply build_colormap_None|].
  split; [intros; by apply point_color_blue|].
  split; [intros; by apply add_points_blue|].
  split; [done|]. intros ???. apply build_colormap_Some.
Qed.

(** C4 (as the code has it).  The smallest value of a non-empty sequence
    never exceeds the largest.  Given a largest value below the smallest all
    the same, the colour step raises nothing: it builds no colour map and no
    legend, and draws every point in blue. *)
Theorem inverted_range_is_blue name lo hi :
  (hi < lo)%Q →
  (∀ (v0 : Q) (values : list Q), ∃ lo' hi',
     series_min (Num <$> v0 :: values) = Some lo' ∧
     series_max (Num <$> v0 :: values) = Some hi' ∧ (lo' <= hi')%Q) ∧
  build_colormap name (Some lo) (Some hi) = None ∧
  (∀ colormap c w,
     point_color colormap (Some lo) (Some hi) c w = (inr (ColorName "blue"), w)) ∧
  (∀ df t e w,
     heap w !! df = Some t → Forall (λ c, c ∈ columns t) (marker_columns e) →
     add_points df name e (Some lo) (Some hi) w =
       (inr (None, blue_marker e <$> rows t), w)).
Proof.
  intros Hlt.
  assert (float_gt (Some hi) (Some lo) = false) as Hgt.
  { simpl. apply Qlt_bool_false. by apply Qlt_le_weak. }
  split; [apply series_min_le_max|].
  split; [by apply build_colormap_None|].
  split; [intros; by apply point_color_blue|].
  intros; by apply add_points_blue.
Qed.

(** ** The drawing loop, run *)












(** ** The script, run *)




(** A run the cache does not answer goes as the script without the cache
    does. *)
Lemma script_cached_cold file_path name S c w :
  c !! file_path = None →
  (script_cached file_path name S c w).1.1 = (script file_path name S w).1 ∧
  (script_cached file_path name S c w).2 = (script file_path name S w).2.
Proof.
  intros H.
  change (script file_path name S w) with
    ((load_data file_path ≫= λ df, after_load df name S) w).
  unfold script_cached, load_data_cached, st_cache_data. rewrite H, bind_run.
  destruct (load_data file_path w) as [[e|[l|]] w']; [done| |done].
  destruct (heap w' !! l) as [t|] eqn:Hl.
  - by destruct (after_load (Some l) name S w').
  - assert (getitem l "tipo_muestra" w' = (inl NameError, w')) as Hg.
    { unfold getitem. rewrite bind_run. unfold load. by rewrite Hl. }
    assert (after_load (Some l) name S w' = (inl NameError, w')) as ->; [|done].
    unfold after_load. by rewrite bind_run, Hg.
Qed.

(** ** The script: edge and error behaviour *)



(** X3.  A file without one of the columns latitude, longitude and
    tipo_muestra: [load_data] raises [KeyError] for the first of the three
    that is missing.  The [except] clause does not catch it: nothing is
    written to the page, the answer is not [None], and the script ends on
    the same exception. *)
Theorem load_data_key_error file_path contents t i c name S w :
  files w !! file_path = Some contents →
  parse_csv contents = Some t →
  list_find (λ c, c ∉ columns t) key_columns = Some (i, c) →
  (load_data file_path w).1 = inl (KeyError c) ∧
  page (load_data file_path w).2 = page w ∧
  (script file_path name S w).1 = inl (KeyError c) ∧
  page (script file_path name S w).2 = page w.
Proof.
  intros Hf Hp Hfind.
  assert (load_data file_path w =
          (inl (KeyError c), set_heap (heap (load_data file_path w).2) w)) as Hl.
  { rewrite load_data_outcome_eq. unfold load_data_outcome. rewrite Hf, Hp.
    unfold key_columns in Hfind. simpl in Hfind.
    repeat case_bool_decide;
      repeat (first [rewrite decide_True in Hfind by done
                    |rewrite decide_False in Hfind by (by intros ?)];
              simpl in Hfind);
      by inversion Hfind. }
  unfold script. rewrite bind_run. rewrite Hl. done.
Qed.

(** X4.  The filter returns a table exactly when the table it is given
    has the sample-type column and the column of the element.  Without the
    first it raises [KeyError] at once and leaves the state as it was;
    with the first but not the second it raises [KeyError] for the
    element's column. *)
Theorem filter_data_key_error df t e S w :
  heap w !! df = Some t →
  ((∃ out, table_of (filter_data df e S w) = inr out) ↔
     "tipo_muestra" ∈ columns t ∧ e ∈ columns t) ∧
  ("tipo_muestra" ∉ columns t →
     filter_data df e S w = (inl (KeyError "tipo_muestra"), w)) ∧
  ("tipo_muestra" ∈ columns t → e ∉ columns t →
     (filter_data df e S w).1 = inl (KeyError e)).
Proof.
  intros Hdf. rewrite (filter_data_outcome_eq _ t) by done.
  unfold filter_data_outcome.
  repeat case_bool_decide; unfold table_of; rewrite ?set_heap_heap, ?lookup_third;
    (split; [split; [try by intros [? [=]]; done|intros [??]; try done; eauto]|done]).
Qed.


(** ** How the loader and the filter compose *)

Lemma coerce_fixed c r v :
  r !! c = Some v → to_numeric_cell v = v → coerce c r = r.
Proof.
  intros Hr Hv. unfold coerce, cell_at. rewrite Hr. simpl. rewrite Hv.
  by apply insert_id.
Qed.

Lemma coerce_idemp c r : coerce c (coerce c r) = coerce c r.
Proof.
  apply (coerce_fixed _ _ (to_numeric_cell (cell_at c r))).
  - unfold coerce. apply lookup_insert_eq.
  - apply to_numeric_cell_idemp.
Qed.

Lemma coerce_commute c c' r : coerce c (coerce c' r) = coerce c' (coerce c r).
Proof.
  destruct (decide (c = c')) as [->|Hne]; [done|].
  unfold coerce at 1 3. rewrite !cell_at_coerce_ne by done.
  unfold coerce. by apply insert_insert_ne.
Qed.

Lemma List_filter_idemp {A} (f g : A → bool) (l : list A) :
  (∀ x, f x = true → g x = true) → List.filter g (List.filter f l) = List.filter f l.
Proof.
  intros H. induction l as [|x l IH]; simpl; [done|].
  destruct (f x) eqn:E; [|done]. simpl. by rewrite (H x E), IH.
Qed.

Lemma clean_rows_idemp rs : clean_rows (clean_rows rs) = clean_rows rs.
Proof.
  rewrite !clean_rows_eq. rewrite List_filter_fmap, <- list_fmap_compose.
  rewrite List_filter_idemp.
  - apply list_fmap_ext. intros i r _. unfold compose.
    rewrite (coerce_commute "latitude" "longitude").
    by rewrite !coerce_idemp.
  - intros r Hr. unfold compose, retained in *.
    rewrite cell_at_coerce_eq, !(cell_at_coerce_ne "longitude") by done.
    rewrite cell_at_coerce_eq, !(cell_at_coerce_ne "latitude") by done.
    by rewrite !to_numeric_cell_idemp.
Qed.

Lemma passes_coerce e S r :
  e ≠ "tipo_muestra" → passes e S (coerce e r) = passes e S r.
Proof.
  intros Hne. unfold passes, selected.
  by rewrite cell_at_coerce_ne, cell_at_coerce_eq, to_numeric_cell_idemp.
Qed.

Lemma filter_rows_idemp e S rs :
  e ≠ "tipo_muestra" → filter_rows e S (filter_rows e S rs) = filter_rows e S rs.
Proof.
  intros Hne. rewrite !filter_rows_eq. rewrite List_filter_fmap, <- list_fmap_compose.
  rewrite List_filter_idemp.
  - apply list_fmap_ext. intros i r _. unfold compose. apply coerce_idemp.
  - intros r Hr. unfold compose. by rewrite passes_coerce.
Qed.

(** X9.  Cleaning is idempotent: cleaning a clean table changes nothing,
    so a file that holds an already clean table is returned as it is. *)
Theorem load_data_idempotent file_path contents t w :
  files w !! file_path = Some contents →
  parse_csv contents = Some (clean t) →
  Forall (λ c, c ∈ columns t) key_columns →
  clean (clean t) = clean t ∧
  loaded_table (load_data file_path w) = inr (Some (clean t)).
Proof.
  intros Hf Hp Hcs.
  assert (clean (clean t) = clean t) as Hcc.
  { unfold clean. simpl. by rewrite clean_rows_idemp. }
  split; [done|].
  rewrite loaded_table_load_data, Hf. unfold load_table. rewrite Hp, Hcc.
  unfold key_columns in Hcs. rewrite !Forall_cons in Hcs.
  destruct Hcs as (? & ? & ? & _). simpl. by rewrite !bool_decide_eq_true_2.
Qed.

(** X8.  Filtering is idempotent: running the filter again, with the same
    element and selection, on the table it returned gives an equal table. *)
Theorem filter_data_idempotent df t e S w :
  heap w !! df = Some t →
  "tipo_muestra" ∈ columns t → e ∈ columns t → e ≠ "tipo_muestra" →
  ∃ df_filtered w' out,
    filter_data df e S w = (inr df_filtered, w') ∧
    heap w' !! df_filtered = Some out ∧
    table_of (filter_data df_filtered e S w') = inr out.
Proof.
  intros Hdf Htipo He Hne.
  rewrite (filter_data_outcome_eq _ t) by done. unfold filter_data_outcome.
  rewrite !bool_decide_eq_true_2 by done.
  eexists _, _, _. split; [done|].
  split; [rewrite set_heap_heap; apply lookup_third|].
  erewrite table_of_filter_data;
    [|rewrite set_heap_heap; apply lookup_third|done..].
  simpl. by rewrite filter_rows_idemp.
Qed.

Lemma sublist_List_filter_mono {A} (f g : A → bool) (l : list A) :
  (∀ x, f x = true → g x = true) → sublist (List.filter f l) (List.filter g l).
Proof.
  intros H. induction l as [|x l IH]; simpl; [constructor|].
  destruct (f x) eqn:E; [rewrite (H x E); by constructor|].
  destruct (g x); [by constructor|done].
Qed.

(** X11.  Selecting more sample types never removes a row: the rows
    returned for a selection are a subsequence of the rows returned for any
    selection that contains it. *)
Theorem filter_data_selection_mono df t e S S' w w' :
  heap w !! df = Some t →
  heap w' !! df = Some t →
  "tipo_muestra" ∈ columns t → e ∈ columns t →
  S ⊆ S' →
  ∃ out out',
    table_of (filter_data df e S w) = inr out ∧
    table_of (filter_data df e S' w') = inr out' ∧
    sublist (rows out) (rows out').
Proof.
  intros Hdf Hdf' Htipo He Hsub. eexists _, _.
  split; [by apply table_of_filter_data|].
  split; [by apply table_of_filter_data|].
  simpl. rewrite !filter_rows_eq. apply fmap_sublist.
  apply sublist_List_filter_mono. intros r. unfold passes.
  rewrite !andb_true_iff, !selected_spec. intros [(s & Hs & Heq) ?].
  split; [|done]. exists s. split; [by apply Hsub|done].
Qed.





End Pandas.

(** ** The element catalogue *)

Lemma element_name_before_underscore s : element_name s = before_underscore s.
Proof.
  unfold element_name. induction s as [|c s IH]; simpl; [done|].
  destruct (Ascii.eqb c "_"); [done|].
  destruct (split "_" s) as [|w ws]; simpl in *; by rewrite <- IH.
Qed.

Lemma split_nonempty sep s : split sep s ≠ [].
Proof.
  induction s as [|c s IH]; simpl; [done|].
  destruct (Ascii.eqb c sep); [done|]. by destruct (split sep s).
Qed.

(** C10.  The catalogue has twenty column names, all different, and the
    menu shows twenty symbols, all different: the symbol of each column, in
    the order of the catalogue, Li first.  For each column [e] the symbol
    shown is the text of [e] before its first underscore, putting [_ppm2]
    back after it gives [e], and no other column has that symbol; every
    symbol of the menu names a column of the catalogue. *)
Theorem element_catalog_roundtrip :
  length element_columns = 20%nat ∧
  NoDup element_columns ∧ NoDup element_names ∧
  (∀ e, e ∈ element_columns →
     element_name e = before_underscore e ∧
     element_col (element_name e) = e ∧
     (∀ e', e' ∈ element_columns → element_name e' = element_name e → e' = e)) ∧
  (∀ n, n ∈ element_names → element_col n ∈ element_columns) ∧
  length element_names = 20%nat ∧
  element_names =
    [ "Li"; "Cu"; "Co"; "Ni"; "La"; "Ce"; "Pr"; "Nd"; "Sm"; "Eu"; "Gd"; "Tb";
      "Dy"; "Ho"; "Er"; "Tm"; "Yb"; "Lu"; "Sc"; "Y" ] ∧
  (∀ i e, element_columns !! i = Some e →
     element_names !! i = Some (element_name e)) ∧
  (∀ e, e ∈ element_columns → element_name e ∈ element_names).
Proof.
  assert (∀ e, e ∈ element_columns → element_col (element_name e) = e) as Hrt.
  { intros e He. rewrite list_elem_of_In in He. simpl in He.
    repeat (destruct He as [<-|He]; [reflexivity|]). destruct He. }
  split; [reflexivity|].
  split; [by apply (bool_decide_unpack _); vm_compute|].
  split; [by apply (bool_decide_unpack _); vm_compute|].
  split.
  - intros e He. split; [apply element_name_before_underscore|].
    split; [by apply Hrt|].
    intros e' He' Heq. by rewrite <- (Hrt e'), Heq, Hrt.
  - split; [intros n (e & -> & He)%list_elem_of_fmap; by rewrite Hrt|].
    split; [reflexivity|]. split; [reflexivity|]. split.
    + intros i e Hi. unfold element_names. by rewrite list_lookup_fmap, Hi.
    + intros e He. apply list_elem_of_fmap. by exists e.
Qed.

(** ** The gradient *)








Lemma Qle_bool_refl x : Qle_bool x x = true.
Proof. apply Qle_bool_iff, Qle_refl. Qed.







(** ** Smallest, largest and mean value of a Series *)

Lemma Qmin_cases x y : Qmin x y = x ∨ Qmin x y = y.
Proof. unfold Qmin, GenericMinMax.gmin. destruct (x ?= y)%Q; auto. Qed.

Lemma Qmax_cases x y : Qmax x y = x ∨ Qmax x y = y.
Proof. unfold Qmax, GenericMinMax.gmax. destruct (x ?= y)%Q; auto. Qed.

Lemma foldl_Qmin_elem (l : list Q) (a : Q) : foldl Qmin a l ∈ a :: l.
Proof.
  revert a. induction l as [|x l IH]; intros a; simpl; [by left|].
  specialize (IH (Qmin a x)). apply elem_of_cons in IH as [->|IH].
  - destruct (Qmin_cases a x) as [->| ->]; [by left | by right; left].
  - by right; right.
Qed.

Lemma foldl_Qmax_elem (l : list Q) (a : Q) : foldl Qmax a l ∈ a :: l.
Proof.
  revert a. induction l as [|x l IH]; intros a; simpl; [by left|].
  specialize (IH (Qmax a x)). apply elem_of_cons in IH as [->|IH].
  - destruct (Qmax_cases a x) as [->| ->]; [by left | by right; left].
  - by right; right.
Qed.

Lemma foldl_Qmin_le_acc (l : list Q) (a : Q) : (foldl Qmin a l <= a)%Q.
Proof.
  revert a. induction l as [|x l IH]; intros a; simpl; [apply Qle_refl|].
  apply (Qle_trans _ (Qmin a x)); [apply IH | apply Q.le_min_l].
Qed.

Lemma foldl_Qmax_ge_acc (l : list Q) (a : Q) : (a <= foldl Qmax a l)%Q.
Proof.
  revert a. induction l as [|x l IH]; intros a; simpl; [apply Qle_refl|].
  apply (Qle_trans _ (Qmax a x)); [apply Q.le_max_l | apply IH].
Qed.

Lemma foldl_Qmin_le (l : list Q) (a y : Q) : y ∈ a :: l → (foldl Qmin a l <= y)%Q.
Proof.
  revert a. induction l as [|x l IH]; intros a Hy.
  - apply list_elem_of_singleton in Hy as ->. apply Qle_refl.
  - simpl. apply elem_of_cons in Hy as [->|Hy].
    + apply (Qle_trans _ (Qmin a x)); [apply foldl_Qmin_le_acc | apply Q.le_min_l].
    + apply elem_of_cons in Hy as [->|Hy].
      * apply (Qle_trans _ (Qmin a x)); [apply foldl_Qmin_le_acc | apply Q.le_min_r].
      * apply IH. by right.
Qed.

Lemma foldl_Qmax_ge (l : list Q) (a y : Q) : y ∈ a :: l → (y <= foldl Qmax a l)%Q.
Proof.
  revert a. induction l as [|x l IH]; intros a Hy.
  - apply list_elem_of_singleton in Hy as ->. apply Qle_refl.
  - simpl. apply elem_of_cons in Hy as [->|Hy].
    + apply (Qle_trans _ (Qmax a x)); [apply Q.le_max_l | apply foldl_Qmax_ge_acc].
    + apply elem_of_cons in Hy as [->|Hy].
      * apply (Qle_trans _ (Qmax a x)); [apply Q.le_max_r | apply foldl_Qmax_ge_acc].
      * apply IH. by right.
Qed.

(** X7.  [min()] and [max()] of a column (lines 102-103) are NaN exactly
    when the column holds no number; otherwise both are values of the
    column and every number of the column lies between them. *)
Theorem series_min_max_spec (s : list cell) :
  (series_min s = None ↔ numbers s = []) ∧
  (series_max s = None ↔ numbers s = []) ∧
  (numbers s ≠ [] →
   ∃ lo hi, series_min s = Some lo ∧ series_max s = Some hi ∧
            lo ∈ numbers s ∧ hi ∈ numbers s ∧
            ∀ x, x ∈ numbers s → (lo <= x)%Q ∧ (x <= hi)%Q).
Proof.
  unfold series_min, series_max. destruct (numbers s) as [|a l]; [done|].
  split; [done|]. split; [done|]. intros _.
  eexists _, _. split; [done|]. split; [done|].
  split; [apply foldl_Qmin_elem|]. split; [apply foldl_Qmax_elem|].
  intros x Hx. split; [by apply foldl_Qmin_le | by apply foldl_Qmax_ge].
Qed.

(** ** The sample types on offer *)

Lemma cell_eqb_refl c : cell_eqb c c = true.
Proof.
  destruct c as [|x|s]; simpl; [done| |by apply bool_decide_eq_true].
  apply Qeq_bool_iff. reflexivity.
Qed.

Lemma cell_eqb_sym a b : cell_eqb a b = cell_eqb b a.
Proof.
  destruct a as [|x|s], b as [|y|s']; simpl; try done.
  - apply eq_true_iff_eq. rewrite !Qeq_bool_iff. split; intros H; by symmetry.
  - apply eq_true_iff_eq. rewrite !bool_decide_eq_true. split; intros H; by symmetry.
Qed.

Lemma cell_eqb_trans a b c :
  cell_eqb a b = true → cell_eqb b c = true → cell_eqb a c = true.
Proof.
  destruct a as [|x|s], b as [|y|s'], c as [|z|s'']; simpl; try done.
  - rewrite !Qeq_bool_iff. intros H1 H2. by rewrite H1.
  - rewrite !bool_decide_eq_true. congruence.
Qed.

Lemma existsb_cell_eqb c l :
  existsb (cell_eqb c) l = true ↔ ∃ u, u ∈ l ∧ cell_eqb c u = true.
Proof. rewrite existsb_exists. by setoid_rewrite list_elem_of_In. Qed.

Lemma unique_from_sublist seen s : sublist (unique_from seen s) s.
Proof.
  revert seen. induction s as [|c s IH]; intros seen; simpl; [constructor|].
  destruct (existsb _ seen); by constructor.
Qed.

Lemma unique_from_fresh seen s u :
  u ∈ unique_from seen s → existsb (cell_eqb u) seen = false.
Proof.
  revert seen. induction s as [|c s IH]; intros seen; simpl; [by intros ?%elem_of_nil|].
  destruct (existsb (cell_eqb c) seen) eqn:E; [apply IH|].
  intros [->|Hu]%elem_of_cons; [done|].
  apply IH in Hu. simpl in Hu. by apply orb_false_iff in Hu as [_ ?].
Qed.

Lemma unique_from_distinct seen s : distinct (unique_from seen s).
Proof.
  revert seen. induction s as [|c s IH]; intros seen; simpl; [done|].
  destruct (existsb (cell_eqb c) seen) eqn:E; [apply IH|].
  simpl. split; [|apply IH].
  apply not_true_iff_false. intros (u & Hu & Hcu)%existsb_cell_eqb.
  apply unique_from_fresh in Hu. simpl in Hu.
  apply orb_false_iff in Hu as [Hu _]. by rewrite cell_eqb_sym, Hcu in Hu.
Qed.

Lemma unique_from_covers seen s c :
  c ∈ s →
  existsb (cell_eqb c) seen = true ∨ existsb (cell_eqb c) (unique_from seen s) = true.
Proof.
  revert seen. induction s as [|c0 s IH]; intros seen; [by intros ?%elem_of_nil|].
  simpl. intros [->|Hc]%elem_of_cons.
  - destruct (existsb (cell_eqb c0) seen) eqn:E; [by left|].
    right. simpl. by rewrite cell_eqb_refl.
  - destruct (existsb (cell_eqb c0) seen) eqn:E; [by apply IH|].
    destruct (IH (c0 :: seen) Hc) as [H|H].
    + simpl in H. apply orb_true_iff in H as [H|H]; [|by left].
      right. simpl. by rewrite H.
    + right. simpl. rewrite H. apply orb_true_r.
Qed.

Lemma unique_from_snoc seen s c :
  unique_from seen (s ++ [c]) =
  if existsb (cell_eqb c) seen || existsb (cell_eqb c) s
  then unique_from seen s else unique_from seen s ++ [c].
Proof.
  revert seen. induction s as [|c0 s IH]; intros seen; simpl.
  { rewrite orb_false_r. by destruct (existsb (cell_eqb c) seen). }
  destruct (existsb (cell_eqb c0) seen) eqn:E0.
  - rewrite IH. destruct (cell_eqb c c0) eqn:Ec; [|done].
    assert (existsb (cell_eqb c) seen = true) as ->; [|done].
    apply existsb_cell_eqb in E0 as (u & Hu & Hcu).
    apply existsb_cell_eqb. exists u. split; [done|].
    by apply (cell_eqb_trans _ c0).
  - rewrite IH. simpl.
    by destruct (cell_eqb c c0), (existsb (cell_eqb c) seen),
      (existsb (cell_eqb c) s).
Qed.

(** X12.  The values [unique()] offers (line 47) are values of the column,
    in the order of their first appearance, no two of them equal, and every
    value of the column is among them: [isin] against them is true on every
    row.  First appearance: an empty column offers nothing; one more row at
    the end of the column adds its value at the end of the list when no
    earlier row holds that value, and changes nothing otherwise. *)
Theorem unique_spec (s : list cell) :
  sublist (unique s) s ∧
  distinct (unique s) ∧
  (∀ c, c ∈ s → ∃ u, u ∈ unique s ∧ cell_eqb c u = true) ∧
  isin s (unique s) = (λ _, true) <$> s ∧
  unique [] = [] ∧
  (∀ c, unique (s ++ [c]) =
        if existsb (cell_eqb c) s then unique s else unique s ++ [c]).
Proof.
  assert (∀ c, c ∈ s → existsb (cell_eqb c) (unique s) = true) as Hcov.
  { intros c Hc. by destruct (unique_from_covers [] s c Hc). }
  split; [apply unique_from_sublist|]. split; [apply unique_from_distinct|].
  split; [intros c Hc; by apply existsb_cell_eqb, Hcov|].
  split; [|split; [done|intros c; apply (unique_from_snoc [])]].
  unfold isin. apply list_fmap_ext. intros i c Hc. apply Hcov.
  by apply list_elem_of_lookup_2 in Hc.
Qed.

(** ** Symbols and column names *)

Lemma before_underscore_app n s :
  has_underscore n = false → before_underscore (n +:+ String "_" s) = n.
Proof.
  induction n as [|c n IH]; simpl; [done|].
  destruct (Ascii.eqb c "_"); [done|]. intros H. by rewrite IH.
Qed.

Lemma before_underscore_clean s : has_underscore (before_underscore s) = false.
Proof.
  induction s as [|c s IH]; simpl; [done|].
  destruct (Ascii.eqb c "_") eqn:E; [done|]. simpl. by rewrite E.
Qed.

(** X13.  Turning a symbol into a column name (line 59) and back (line
    45) gives the symbol again exactly when the symbol has no underscore in
    it. *)
Theorem element_name_col_roundtrip (n : string) :
  element_name (element_col n) = n ↔ has_underscore n = false.
Proof.
  rewrite element_name_before_underscore. unfold element_col. split.
  - intros H. rewrite <- H. apply before_underscore_clean.
  - apply before_underscore_app.
Qed.

(** ** All sample types selected *)

(** X17.  With every sample type of the table selected, as the menu has
    it by default (lines 62-66), the filter leaves out only the rows whose
    element does not coerce to a number or is negative. *)
Theorem filter_data_all_types (parse_float : string → float) df t e S w :
  heap w !! df = Some t →
  "tipo_muestra" ∈ columns t → e ∈ columns t →
  unique (cell_at "tipo_muestra" <$> rows t) ⊆ S →
  table_of (filter_data parse_float df e S w) =
  inr (mkDataFrame (columns t)
         (coerce parse_float e <$> List.filter (element_ok parse_float e) (rows t))).
Proof.
  intros Hdf Htipo He Hall. rewrite (table_of_filter_data _ _ t) by done.
  rewrite filter_rows_eq. do 3 f_equal.
  apply filter_ext_in. intros r Hr%list_elem_of_In.
  assert (cell_at "tipo_muestra" r ∈ cell_at "tipo_muestra" <$> rows t) as Hc.
  { apply list_elem_of_fmap. by exists r. }
  destruct (unique_from_covers [] _ _ Hc) as [Hcov|Hcov]; [done|].
  apply existsb_cell_eqb in Hcov as (u & Hu & Heq).
  unfold passes, element_ok, selected.
  rewrite (proj2 (existsb_cell_eqb _ _)); [done|].
  exists u. split; [by apply Hall|done].
Qed.

(** ** The sample run *)

Example load_sample :
  loaded_table (load_data read_integer sample_csv sample_file sample_start) =
  inr (Some sample_clean).
Proof. vm_compute. reflexivity. Qed.

Example filter_sample :
  table_of (filter_data read_integer 0 "Li_ppm2" [Str "core"] sample_loaded) =
  inr sample_filtered.
Proof. vm_compute. reflexivity. Qed.

Example script_sample :
  page (script read_integer sample_csv sample_file "Li" [Str "core"] sample_start).2 =
  [StFolium (Some 4, Some (-74))%Q None
     [mkMarker (Num 4, Num (-74)) (ColorName "blue") (Str "Tunja", Str "core", Num 5)]].
Proof. vm_compute. reflexivity. Qed.

(** Two cores with different lithium values: the colour map is in use, the
    smaller value gets the first stop and the larger the last. *)
Example script_gradient :
  let t := mkDataFrame sample_columns
             [ sample_row (Num 4) (Num (-74)) (Str "core") (Str "Tunja") (Num 5);
               sample_row (Num 6) (Num (-72)) (Str "core") (Str "Paipa") (Num 9) ] in
  render_map 0 "Li" "Li_ppm2" (mkWorld ∅ [t] []) =
  (inr (),
   mkWorld ∅ [t]
     [StFolium (Some (10 # 2), Some (-146 # 2))%Q
        (Some (mkLinearColormap YlOrRd_09 5 9 "Concentración de Li (ppm)"))
        [mkMarker (Num 4, Num (-74)) (Rgb (255, 255, 204)%Q) (Str "Tunja", Str "core", Num 5);
         mkMarker (Num 6, Num (-72)) (Rgb (128, 0, 38)%Q) (Str "Paipa", Str "core", Num 9)]]).
Proof. vm_compute. reflexivity. Qed.

(** ** Instances of the statements on the sample *)

Ltac by_compute := apply (bool_decide_unpack _); vm_compute; exact I.

Lemma load_data_retains_witness :
  ∃ ct,
    loaded_table (load_data read_integer sample_csv sample_file sample_start) =
      inr (Some ct) ∧
    rows ct =
      (coerce read_integer "longitude" ∘ coerce read_integer "latitude") <$>
        List.filter (retained read_integer) (rows sample_raw) ∧
    (∀ r, retained read_integer r = true ↔
          (∃ x, to_numeric_cell read_integer (cell_at "latitude" r) = Num x) ∧
          (∃ y, to_numeric_cell read_integer (cell_at "longitude" r) = Num y) ∧
          cell_at "tipo_muestra" r ≠ NaN) ∧
    (∀ r, r ∈ rows sample_raw →
          ((coerce read_integer "longitude" ∘ coerce read_integer "latitude") r
             ∈ rows ct ↔ retained read_integer r = true)) ∧
    (∀ r', r' ∈ rows ct →
          (∃ x, cell_at "latitude" r' = Num x) ∧
          (∃ y, cell_at "longitude" r' = Num y) ∧
          cell_at "tipo_muestra" r' ≠ NaN).
Proof.
  apply (load_data_retains read_integer sample_csv sample_file
           "latitude,longitude,tipo_muestra,Municipio,Li_ppm2" sample_raw sample_start).
  - reflexivity.
  - reflexivity.
  - by_compute.
Defined.

Lemma load_data_cached_not_found_witness :
  (∅ : cache) !! sample_file = None ∧
  files sample_nofile !! sample_file = None ∧
  load_data_cached read_integer sample_csv sample_file ∅ sample_nofile =
  (inr None,
   <[sample_file := mkCached None [StError (not_found_msg sample_file)]]> ∅,
   mkWorld ∅ [] [StError (not_found_msg sample_file)]).
Proof.
  assert ((∅ : cache) !! sample_file = None) as Hc by reflexivity.
  assert (files sample_nofile !! sample_file = None) as Hf by reflexivity.
  split; [exact Hc|]. split; [exact Hf|].
  destruct (load_data_cached_not_found read_integer sample_csv sample_file ∅
              sample_nofile) as (Hmiss & _).
  destruct (Hmiss Hc) as (_ & H & _). exact (H Hf).
Defined.

(** C6, as stated, fails in both directions once the cache holds an answer
    for the path.  A first run finds the file and returns the table, which
    the cache keeps; the file is then removed; the next run still returns
    the table and reports no error.  And a first run finds no file and
    answers [None], which the cache keeps; the file is then put in place;
    the next run still answers [None] and shows the error. *)
Lemma cached_answer_outlives_file :
  (cache_after
     (load_data_cached read_integer sample_csv sample_file ∅ sample_start) =
     sample_cache_table ∧
   files sample_nofile !! sample_file = None ∧
   load_data_cached read_integer sample_csv sample_file sample_cache_table
     sample_nofile =
   (inr (Some 0%nat), sample_cache_table, mkWorld ∅ [sample_clean] [])) ∧
  (cache_after
     (load_data_cached read_integer sample_csv sample_file ∅ sample_nofile) =
     sample_cache_none ∧
   is_Some (files sample_start !! sample_file) ∧
   load_data_cached read_integer sample_csv sample_file sample_cache_none
     sample_start =
   (inr None, sample_cache_none,
    mkWorld (files sample_start) [] [StError (not_found_msg sample_file)])).
Proof.
  split; (split; [vm_compute; reflexivity|split; [|vm_compute; reflexivity]]).
  - reflexivity.
  - eexists. reflexivity.
Qed.



Lemma filter_data_deterministic_ordered_witness :
  let w2 := mkWorld ∅ [sample_raw; sample_clean] [StWarning "x"] in
  table_of (filter_data read_integer 0 "Li_ppm2" [Str "core"] sample_loaded) =
  table_of (filter_data read_integer 1 "Li_ppm2" [Str "core"] w2) ∧
  ∀ out,
    table_of (filter_data read_integer 0 "Li_ppm2" [Str "core"] sample_loaded) =
      inr out →
    ∃ kept, sublist kept (rows sample_clean) ∧
            rows out = coerce read_integer "Li_ppm2" <$> kept.
Proof.
  apply (filter_data_deterministic_ordered read_integer 0 1 sample_clean).
  - reflexivity.
  - reflexivity.
Defined.

Lemma filter_data_frame_witness :
  heap sample_loaded !! 0%nat = Some sample_clean ∧
  heap (filter_data read_integer 0 "Li_ppm2" [Str "core"] sample_loaded).2 !! 0%nat =
  Some sample_clean.
Proof.
  split; [reflexivity|].
  apply (filter_data_frame read_integer 0 "Li_ppm2" [Str "core"] sample_loaded).
  reflexivity.
Defined.

Lemma degenerate_scale_is_blue_witness :
  build_colormap "Li" (Some 5%Q) (Some 5%Q) = None ∧
  ∀ colormap c w,
    point_color colormap (Some 5%Q) (Some 5%Q) c w = (inr (ColorName "blue"), w).
Proof.
  pose proof (degenerate_scale_is_blue "Li" 5%Q [5%Q] 5%Q 5%Q) as H.
  destruct H as (H1 & H2 & _).
  - vm_compute. reflexivity.
  - vm_compute. reflexivity.
  - reflexivity.
  - exact (conj H1 H2).
Defined.

Lemma inverted_range_is_blue_witness :
  (1 < 2)%Q ∧
  build_colormap "Li" (Some 2%Q) (Some 1%Q) = None ∧
  ∀ colormap c w,
    point_color colormap (Some 2%Q) (Some 1%Q) c w = (inr (ColorName "blue"), w).
Proof.
  split; [reflexivity|].
  pose proof (inverted_range_is_blue "Li" 2%Q 1%Q) as H.
  destruct H as (_ & H1 & H2 & _).
  - reflexivity.
  - exact (conj H1 H2).
Defined.

(** C4, as stated, fails: with the largest value 1 below the smallest 2,
    the colour step returns normally, with no legend and the point in
    blue; it raises nothing. *)
Lemma inverted_range_not_rejected :
  (1 < 2)%Q ∧
  add_points 0 "Li" "Li_ppm2" (Some 2%Q) (Some 1%Q) sample_drawn =
  (inr (None,
        [mkMarker (Num 4, Num (-74)) (ColorName "blue")
           (Str "Tunja", Str "core", Num 5)]),
   sample_drawn).
Proof. split; [reflexivity|]. vm_compute. reflexivity. Qed.


Lemma element_catalog_roundtrip_witness :
  "Li_ppm2" ∈ element_columns ∧
  element_name "Li_ppm2" = "Li" ∧
  element_col (element_name "Li_ppm2") = "Li_ppm2" ∧
  element_name "Li_ppm2" ∈ element_names.
Proof.
  assert ("Li_ppm2" ∈ element_columns) as H by by_compute.
  split; [exact H|]. split; [reflexivity|].
  destruct element_catalog_roundtrip as (_ & _ & _ & Hrt & _ & _ & _ & _ & Hin).
  exact (conj (proj1 (proj2 (Hrt "Li_ppm2" H))) (Hin "Li_ppm2" H)).
Defined.

(** ** Instances of the further statements on the sample *)



Lemma load_data_key_error_witness :
  (load_data read_integer (λ _, Some sample_nolat) sample_file
     sample_start_nolat).1 = inl (KeyError "latitude") ∧
  (script read_integer (λ _, Some sample_nolat) sample_file "Li" [Str "core"]
     sample_start_nolat).1 = inl (KeyError "latitude").
Proof.
  destruct (load_data_key_error read_integer (λ _, Some sample_nolat) sample_file
              "longitude,tipo_muestra,Li_ppm2" sample_nolat 0 "latitude" "Li"
              [Str "core"] sample_start_nolat) as (H1 & _ & H2 & _).
  - reflexivity.
  - reflexivity.
  - vm_compute. reflexivity.
  - exact (conj H1 H2).
Defined.

Lemma filter_data_key_error_witness :
  (filter_data read_integer 0 "Cu_ppm2" [Str "core"] sample_loaded).1 =
  inl (KeyError "Cu_ppm2").
Proof.
  destruct (filter_data_key_error read_integer 0 sample_clean "Cu_ppm2"
              [Str "core"] sample_loaded) as (_ & _ & H).
  - reflexivity.
  - apply H; by_compute.
Defined.

Lemma series_min_max_spec_witness :
  ∃ lo hi, series_min [Num 4; NaN; Num 9] = Some lo ∧
           series_max [Num 4; NaN; Num 9] = Some hi ∧
           lo ∈ numbers [Num 4; NaN; Num 9] ∧ hi ∈ numbers [Num 4; NaN; Num 9] ∧
           ∀ x, x ∈ numbers [Num 4; NaN; Num 9] → (lo <= x)%Q ∧ (x <= hi)%Q.
Proof.
  apply (series_min_max_spec [Num 4; NaN; Num 9]).
  vm_compute. discriminate.
Defined.

Lemma filter_data_idempotent_witness :
  ∃ df_filtered w' out,
    filter_data read_integer 0 "Li_ppm2" [Str "core"] sample_loaded =
      (inr df_filtered, w') ∧
    heap w' !! df_filtered = Some out ∧
    table_of (filter_data read_integer df_filtered "Li_ppm2" [Str "core"] w') =
      inr out.
Proof.
  apply (filter_data_idempotent read_integer 0 sample_clean).
  - reflexivity.
  - by_compute.
  - by_compute.
  - discriminate.
Defined.

Lemma load_data_idempotent_witness :
  loaded_table (load_data read_integer (λ _, Some sample_clean) sample_file
                  sample_start) =
  inr (Some (clean read_integer sample_raw)).
Proof.
  apply (load_data_idempotent read_integer (λ _, Some sample_clean) sample_file
           "latitude,longitude,tipo_muestra,Municipio,Li_ppm2" sample_raw
           sample_start).
  - reflexivity.
  - vm_compute. reflexivity.
  - by_compute.
Defined.


Lemma filter_data_selection_mono_witness :
  ∃ out out',
    table_of (filter_data read_integer 0 "Li_ppm2" [Str "core"] sample_loaded) =
      inr out ∧
    table_of (filter_data read_integer 0 "Li_ppm2" [Str "core"; Str "soil"]
                sample_loaded) = inr out' ∧
    sublist (rows out) (rows out').
Proof.
  apply (filter_data_selection_mono read_integer 0 sample_clean).
  - reflexivity.
  - reflexivity.
  - by_compute.
  - by_compute.
  - intros c Hc. apply list_elem_of_singleton in Hc. rewrite Hc. left.
Defined.

Lemma unique_spec_witness :
  Str "core" ∈ [Str "core"; Str "soil"; Str "core"] ∧
  ∃ u, u ∈ unique [Str "core"; Str "soil"; Str "core"] ∧
       cell_eqb (Str "core") u = true.
Proof.
  assert (Str "core" ∈ [Str "core"; Str "soil"; Str "core"]) as H by left.
  split; [exact H|].
  destruct (unique_spec [Str "core"; Str "soil"; Str "core"]) as (_ & _ & Hcov & _).
  exact (Hcov (Str "core") H).
Defined.

(** The value kept is the first one: a type met again later stays where it
    first appeared. *)
Example unique_keeps_first :
  unique [Str "core"; Str "soil"; Str "core"] = [Str "core"; Str "soil"].
Proof. reflexivity. Qed.

Lemma element_name_col_roundtrip_witness :
  has_underscore "Li" = false ∧ element_name (element_col "Li") = "Li".
Proof.
  split; [reflexivity|].
  apply (element_name_col_roundtrip "Li"). reflexivity.
Defined.


Lemma filter_data_all_types_witness :
  table_of (filter_data read_integer 0 "Li_ppm2" [Str "core"; Str "soil"]
              sample_loaded) =
  inr (mkDataFrame (columns sample_clean)
         (coerce read_integer "Li_ppm2" <$>
            List.filter (element_ok read_integer "Li_ppm2") (rows sample_clean))).
Proof.
  apply (filter_data_all_types read_integer 0 sample_clean).
  - reflexivity.
  - by_compute.
  - by_compute.
  - intros u Hu. exact Hu.
Defined.
